(** * prec_ctrl: fixed point numbers that track their precision

    A shallow embedding of the header-only library [prec_ctrl]
    (FixedPoint/significand.h, FixedPoint/limit.h, FixedPoint.h,
    FixedPointComplex.h, fixed_numeric.h, double_limit.h) and the
    properties of its arithmetic, rounding and accumulation functions.

    Conventions of the embedding.
    - A C++ integer of N bits is a [Z] together with the conversion
      [sint N] (signed, two's complement) or [uint N] (unsigned) that is
      applied wherever the source stores or computes in that type; signed
      overflow, which the language leaves undefined, wraps around as it
      does on the hardware, and so does a shift at run time by the
      width of the type or more, of which the hardware takes the count
      modulo the width.  A constant that the compiler evaluates
      ([constexpr]) is what its expression says as long as its shift is
      shorter than the type; a theorem that depends on such a constant
      states that bound.
    - [int_fast32_t] and [int_fast64_t] have the width the platform gives
      them; the standard only promises at least 32 and 64 bits.  The
      widths are the fields of a [Platform].
    - The template parameters WIDTH and PLACE of [FixedPoint] are fields
      of the record, and a [static_assert] is a boolean function that a
      theorem takes as a hypothesis: where it is false the instantiation
      does not compile and there is no value to speak of.
    - [double] is binary64 as specified by [SpecFloat] of the standard
      library (precision 53, infinities at exponent 1024); the
      operations that round do so in the rounding mode that
      [std::fesetround] has set, which is a parameter of theirs.  The
      conversion of a double to an integer is undefined where the value
      does not fit the integer type ([None]); what x86-64 returns there
      is given beside it. *)

From Stdlib Require Import ZArith Lia Bool List QArith Qpower.
From Stdlib Require Import Floats.SpecFloat.

Local Open Scope Z_scope.

(** ** Machine integers *)

(** Conversion to an N-bit two's complement integer. *)
Definition sint (N x : Z) : Z := (x + 2 ^ (N - 1)) mod 2 ^ N - 2 ^ (N - 1).

(** Conversion to an N-bit unsigned integer. *)
Definition uint (N x : Z) : Z := x mod 2 ^ N.

(** Signed arithmetic carried out in N bits. *)
Definition sadd (N a b : Z) : Z := sint N (a + b).
Definition ssub (N a b : Z) : Z := sint N (a - b).
Definition smul (N a b : Z) : Z := sint N (a * b).
Definition sneg (N a : Z) : Z := sint N (- a).

(** Shifts of an integer of N bits by a count that is not known to be
    less than N: the shift instructions of x86-64 and of AArch64 take
    the count modulo N, where the language leaves the shift undefined. *)
Definition sshr (N a k : Z) : Z := Z.shiftr a (k mod N).
Definition sshl (N a k : Z) : Z := sint N (Z.shiftl a (k mod N)).

(** The usual arithmetic conversions between two signed types of the
    given widths: the operation is carried out in the wider one. *)
Definition common_bits (N1 N2 : Z) : Z := Z.max N1 N2.

(** [std::max] and [std::min] of <algorithm>. *)
Definition std_max (a b : Z) : Z := if a <? b then b else a.
Definition std_min (a b : Z) : Z := if b <? a then b else a.

(** The widths of the two fast integer types of <cstdint>. *)
Record Platform : Set := mkPlatform {
  int_fast32_bits : Z;
  int_fast64_bits : Z
}.

(** What the standard guarantees of them (and that the type named for
    more bits is not the narrower one). *)
Definition conforming (pf : Platform) : Prop :=
  32 <= int_fast32_bits pf /\ 64 <= int_fast64_bits pf /\
  int_fast32_bits pf <= int_fast64_bits pf.

(** glibc on x86-64: both are [long]. *)
Definition lp64_glibc : Platform := mkPlatform 64 64.

(** Platforms whose [int_fast32_t] is [int] (musl, Darwin, Windows). *)
Definition fast32_is_int : Platform := mkPlatform 32 64.

(** ** Doubles *)

Definition double : Set := spec_float.
Definition prec : Z := 53.
Definition emax : Z := 1024.

Definition dlt : double -> double -> bool := SFltb.
Definition deq : double -> double -> bool := SFeqb.

(** The rounding modes of <cfenv> that [std::fesetround] selects. *)
Inductive rounding_mode : Set :=
  FE_TONEAREST | FE_DOWNWARD | FE_UPWARD | FE_TOWARDZERO.

(** The rounding of a magnitude [m], of which [l] tells what has been
    cut off behind it, for a number of sign [s]: the magnitude itself or
    the next one, as the mode says. *)
Definition round_in_mode (mode : rounding_mode) (s : bool) (m : Z) (l : location)
  : Z :=
  match mode with
  | FE_TONEAREST => round_nearest_even m l
  | FE_DOWNWARD => match l with loc_Exact => m | _ => if s then m + 1 else m end
  | FE_UPWARD => match l with loc_Exact => m | _ => if s then m else m + 1 end
  | FE_TOWARDZERO => m
  end.

(** What an operation that overflows returns: an infinity, or the
    greatest finite double where the mode rounds toward zero on that
    side. *)
Definition overflow (mode : rounding_mode) (s : bool) : double :=
  let to_infinity :=
    match mode with
    | FE_TONEAREST => true
    | FE_DOWNWARD => s
    | FE_UPWARD => negb s
    | FE_TOWARDZERO => false
    end in
  if to_infinity then S754_infinity s
  else S754_finite s 9007199254740991 (emax - prec).

(** The double that the number of sign [sx] and of magnitude
    mx * 2^ex, with [lx] cut off behind it, is rounded to in the given
    mode.  This is [binary_round_aux] of SpecFloat, which rounds to
    nearest, with the mode as a parameter. *)
Definition dround_aux (mode : rounding_mode) (sx : bool) (mx ex : Z) (lx : location)
  : double :=
  let '(mrs', e') := shr_fexp prec emax mx ex lx in
  let '(mrs'', e'') :=
    shr_fexp prec emax
      (round_in_mode mode sx (shr_m mrs') (loc_of_shr_record mrs')) e' loc_Exact in
  match shr_m mrs'' with
  | Z0 => S754_zero sx
  | Zpos m => if e'' <=? emax - prec then S754_finite sx m e'' else overflow mode sx
  | Zneg _ => S754_nan
  end.

(** The same for an exact number, as [binary_round] of SpecFloat. *)
Definition dround (mode : rounding_mode) (sx : bool) (mx : positive) (ex : Z)
  : double :=
  let '(mz, ez) := shl_align mx ex (fexp prec emax (Zpos (digits2_pos mx) + ex)) in
  dround_aux mode sx (Zpos mz) ez loc_Exact.

(** The product of two doubles, rounded in the current mode. *)
Definition dmul (mode : rounding_mode) (x y : double) : double :=
  match x, y with
  | S754_nan, _ | _, S754_nan => S754_nan
  | S754_infinity sx, S754_infinity sy => S754_infinity (xorb sx sy)
  | S754_infinity sx, S754_finite sy _ _ => S754_infinity (xorb sx sy)
  | S754_finite sx _ _, S754_infinity sy => S754_infinity (xorb sx sy)
  | S754_infinity _, S754_zero _ => S754_nan
  | S754_zero _, S754_infinity _ => S754_nan
  | S754_finite sx _ _, S754_zero sy => S754_zero (xorb sx sy)
  | S754_zero sx, S754_finite sy _ _ => S754_zero (xorb sx sy)
  | S754_zero sx, S754_zero sy => S754_zero (xorb sx sy)
  | S754_finite sx mx ex, S754_finite sy my ey =>
      dround_aux mode (xorb sx sy) (Zpos (mx * my)) (ex + ey) loc_Exact
  end.

(** Conversion of an integer to [double], rounded in the current mode. *)
Definition double_of_int (mode : rounding_mode) (n : Z) : double :=
  match n with
  | Z0 => S754_zero false
  | Zpos m => dround mode false m 0
  | Zneg m => dround mode true m 0
  end.

(** [std::ldexp], rounded in the current mode. *)
Definition ldexp (mode : rounding_mode) (x : double) (k : Z) : double :=
  match x with
  | S754_finite sx mx ex => dround mode sx mx (ex + k)
  | _ => x
  end.

(** [std::exp2] at an integer argument: the power of two, which is a
    double for every place that the static assertions admit. *)
Definition exp2 (k : Z) : double := dround FE_TONEAREST false 1 k.

(** The magnitude of m * 2^(-k) rounded to an integer, for a number of
    sign [s]. *)
Definition round_magnitude (mode : rounding_mode) (s : bool) (m k : Z) : Z :=
  let q := m / 2 ^ k in
  let r := m mod 2 ^ k in
  match mode with
  | FE_TONEAREST =>
      match 2 * r ?= 2 ^ k with
      | Lt => q
      | Gt => q + 1
      | Eq => if Z.even q then q else q + 1
      end
  | FE_DOWNWARD => if s && negb (r =? 0) then q + 1 else q
  | FE_UPWARD => if negb s && negb (r =? 0) then q + 1 else q
  | FE_TOWARDZERO => q
  end.

(** [std::nearbyint]: rounding to an integral value in the current mode. *)
Definition nearbyint (mode : rounding_mode) (x : double) : double :=
  match x with
  | S754_finite s m e =>
      if 0 <=? e then x
      else
        let q := round_magnitude mode s (Zpos m) (- e) in
        if q =? 0 then S754_zero s
        else double_of_int mode (cond_Zopp s q)
  | _ => x
  end.

(** Conversion of a [double] to a signed integer of N bits: the value is
    truncated, and the conversion is undefined ([None]) where the
    truncated value does not fit, and for infinities and NaN. *)
Definition int_of_double (N : Z) (x : double) : option Z :=
  match x with
  | S754_zero _ => Some 0
  | S754_finite s m e =>
      let t := cond_Zopp s (if 0 <=? e then Zpos m * 2 ^ e else Zpos m / 2 ^ (- e)) in
      if (- 2 ^ (N - 1) <=? t) && (t <? 2 ^ (N - 1)) then Some t else None
  | _ => None
  end.

(** What the conversion instruction of x86-64 (cvttsd2si) returns: the
    value where the conversion is defined, and where it is not the
    "integer indefinite" value, which is the least integer of the
    type. *)
Definition cvttsd2si (N : Z) (x : double) : Z :=
  match int_of_double N x with
  | Some i => i
  | None => - 2 ^ (N - 1)
  end.

(** ** FixedPoint/significand.h *)

Definition MIN_BIT_WIDTH : Z := 2.

(** [std::numeric_limits<double>::digits + 1]. *)
Definition MAX_BIT_WIDTH : Z := 53 + 1.

Section Embedding.
Variable pf : Platform.

(** The number of bits of [significand_t<WIDTH>]. *)
Definition significand_bits (WIDTH : Z) : Z :=
  if WIDTH >? 32 then int_fast64_bits pf else int_fast32_bits pf.

(** [(static_cast<u_significand_t<WIDTH>>(1) << (WIDTH - 1)) - 1], stored
    in a [significand_t<WIDTH>]. *)
Definition MAX_SIGNIFICAND_VALUE (WIDTH : Z) : Z :=
  let N := significand_bits WIDTH in
  sint N (uint N (uint N (Z.shiftl (uint N 1) (WIDTH - 1)) - 1)).

Definition MIN_SIGNIFICAND_VALUE (WIDTH : Z) : Z :=
  sneg (significand_bits WIDTH) (MAX_SIGNIFICAND_VALUE WIDTH).

(** ** FixedPoint/limit.h *)

(** [std::numeric_limits<double>::min_exponent - 1]. *)
Definition MIN_LSB_PLACE : Z := -1021 - 1.

(** [std::numeric_limits<double>::max_exponent]. *)
Definition MAX_MSB_PLACE : Z := 1024.

(** The two static assertions of [clamp]. *)
Definition static_assert_clamp (WIDTH : Z) : bool :=
  (MIN_BIT_WIDTH <=? WIDTH) && (WIDTH <=? MAX_BIT_WIDTH).

(** [clamp<WIDTH>(i)]: the parameter is a [significand_t<WIDTH>], so the
    caller's value has been converted to that type when the comparisons
    are made. *)
Definition clamp (WIDTH : Z) (i : Z) : Z :=
  if i >? MAX_SIGNIFICAND_VALUE WIDTH then MAX_SIGNIFICAND_VALUE WIDTH
  else if i <? MIN_SIGNIFICAND_VALUE WIDTH then MIN_SIGNIFICAND_VALUE WIDTH
  else i.

(** [to_significand<WIDTH, PLACE>(a)]: the rounded product is a [double]
    and [clamp] takes a [significand_t<WIDTH>]; the implicit conversion
    between them comes before the clamping. *)
Definition to_significand (mode : rounding_mode) (WIDTH PLACE : Z) (a : double)
  : option Z :=
  match int_of_double (significand_bits WIDTH)
          (nearbyint mode (dmul mode a (exp2 (- PLACE)))) with
  | Some i => Some (clamp WIDTH i)
  | None => None
  end.

(** [to_significand] as x86-64 runs it, where the conversion is the
    instruction cvttsd2si. *)
Definition to_significand_x86_64 (mode : rounding_mode) (WIDTH PLACE : Z) (a : double)
  : Z :=
  clamp WIDTH
    (cvttsd2si (significand_bits WIDTH)
       (nearbyint mode (dmul mode a (exp2 (- PLACE))))).

(** Modelled from the spec: [clamp_significand<WIDTH>(v)], which
    FixedPoint.h calls in [set_significand] and [reduce_dynamic_range]
    and which none of the headers at hand declares.  The spec (4.1): if the
    value exceeds max(width) = 2^(width-1)-1, return max(width); if
    below -max(width), return -max(width); else return the value
    unchanged. *)
Definition clamp_significand (WIDTH : Z) (v : Z) : Z :=
  if v >? 2 ^ (WIDTH - 1) - 1 then 2 ^ (WIDTH - 1) - 1
  else if v <? - (2 ^ (WIDTH - 1) - 1) then - (2 ^ (WIDTH - 1) - 1)
  else v.

(** ** double_limit.h *)

(** The assertions of [limit_precision]. *)
Definition assert_limit_precision (width place : Z) : bool :=
  (MIN_LSB_PLACE <=? place) && (width + place <=? MAX_MSB_PLACE)
  && (2 <=? width) && (width <=? 53 + 1).

Definition limit_precision (mode : rounding_mode) (a : double) (width place : Z)
  : double :=
  let N := int_fast64_bits pf in
  let a1 := nearbyint mode (dmul mode a (exp2 (- place))) in
  let MAX_VALUE := sint N (uint N (uint N (Z.shiftl (uint N 1) (width - 1)) - 1)) in
  let a2 :=
    if dlt (double_of_int mode MAX_VALUE) a1 then double_of_int mode MAX_VALUE
    else if dlt a1 (double_of_int mode (sneg N MAX_VALUE))
    then double_of_int mode (sneg N MAX_VALUE)
    else a1 in
  dmul mode a2 (exp2 place).

(** ** FixedPoint.h *)

(** A value of the class [FixedPoint<WIDTH, PLACE>]. *)
Record FixedPoint : Set := mkFixedPoint {
  width : Z;
  place : Z;
  significand : Z
}.

(** The four static assertions of the class. *)
Definition static_assert_FixedPoint (WIDTH PLACE : Z) : bool :=
  (MIN_BIT_WIDTH <=? WIDTH) && (WIDTH <=? MAX_BIT_WIDTH)
  && (MIN_LSB_PLACE <=? PLACE) && (WIDTH + PLACE <=? MAX_MSB_PLACE).

Definition superset_width (WIDTH PLACE width2 place2 extra_width : Z) : Z :=
  std_max (WIDTH + PLACE) (width2 + place2) - std_min PLACE place2 + extra_width.

(** The parameters of [addition_result_t<WIDTH2, PLACE2>]. *)
Definition addition_result_width (WIDTH PLACE WIDTH2 PLACE2 : Z) : Z :=
  superset_width WIDTH PLACE WIDTH2 PLACE2
    (if (PLACE >=? WIDTH2 + PLACE2 - 1) || (PLACE2 >=? WIDTH + PLACE - 1)
     then 0 else 1).

Definition addition_result_place (PLACE PLACE2 : Z) : Z := std_min PLACE PLACE2.

(** The parameters of the result of [operator*]. *)
Definition multiplication_result_width (WIDTH WIDTH2 : Z) : Z := WIDTH + WIDTH2 - 1.
Definition multiplication_result_place (PLACE PLACE2 : Z) : Z := PLACE + PLACE2.

(** The default constructor. *)
Definition FixedPoint_zero (WIDTH PLACE : Z) : FixedPoint :=
  mkFixedPoint WIDTH PLACE 0.

(** The static assertion of the constructor from a narrower type. *)
Definition static_assert_narrower (WIDTH PLACE WIDTH_SRC PLACE_SRC : Z) : bool :=
  (PLACE <=? PLACE_SRC) && (WIDTH + PLACE >=? WIDTH_SRC + PLACE_SRC).

(** [FixedPoint<WIDTH, PLACE>(src)] for a narrower [src]. *)
Definition from_narrower (WIDTH PLACE : Z) (src : FixedPoint) : FixedPoint :=
  let N := significand_bits WIDTH in
  mkFixedPoint WIDTH PLACE
    (smul N (sint N (significand src))
            (sint N (Z.shiftl (sint N 1) (place src - PLACE)))).

(** [reduce_dynamic_range<DEST_WIDTH>()]. *)
Definition reduce_dynamic_range (DEST_WIDTH : Z) (x : FixedPoint) : FixedPoint :=
  mkFixedPoint DEST_WIDTH (place x)
    (sint (significand_bits DEST_WIDTH) (clamp_significand DEST_WIDTH (significand x))).

(** [FixedPoint<WIDTH, PLACE>(double)]. *)
Definition from_double (mode : rounding_mode) (WIDTH PLACE : Z) (src : double)
  : option FixedPoint :=
  match to_significand mode WIDTH PLACE src with
  | Some s => Some (mkFixedPoint WIDTH PLACE s)
  | None => None
  end.

(** [FixedPoint<WIDTH, PLACE>(double)] as x86-64 runs it. *)
Definition from_double_x86_64 (mode : rounding_mode) (WIDTH PLACE : Z) (src : double)
  : FixedPoint :=
  mkFixedPoint WIDTH PLACE (to_significand_x86_64 mode WIDTH PLACE src).

(** [operator double()]. *)
Definition to_double (mode : rounding_mode) (x : FixedPoint) : double :=
  ldexp mode (double_of_int mode (significand x)) (place x).

(** [operator bool()]. *)
Definition to_bool (x : FixedPoint) : bool := negb (significand x =? 0).

(** Unary [operator-]. *)
Definition neg (x : FixedPoint) : FixedPoint :=
  mkFixedPoint (width x) (place x) (sneg (significand_bits (width x)) (significand x)).

(** Binary [operator+]. *)
Definition add (a op2 : FixedPoint) : FixedPoint :=
  let W := addition_result_width (width a) (place a) (width op2) (place op2) in
  let P := addition_result_place (place a) (place op2) in
  let result := from_narrower W P a in
  let op2_ext := from_narrower W P op2 in
  mkFixedPoint W P (sadd (significand_bits W) (significand result) (significand op2_ext)).

(** Binary [operator-]. *)
Definition sub (a op2 : FixedPoint) : FixedPoint :=
  let W := addition_result_width (width a) (place a) (width op2) (place op2) in
  let P := addition_result_place (place a) (place op2) in
  let result := from_narrower W P a in
  let op2_ext := from_narrower W P op2 in
  mkFixedPoint W P (ssub (significand_bits W) (significand result) (significand op2_ext)).

(** Binary [operator*]. *)
Definition mul (a op2 : FixedPoint) : FixedPoint :=
  let W := multiplication_result_width (width a) (width op2) in
  let P := multiplication_result_place (place a) (place op2) in
  let N := significand_bits W in
  let significand1 := sint N (significand a) in
  let significand2 := sint N (significand op2) in
  mkFixedPoint W P (smul N significand1 significand2).

(** [exp2<EXP>()]. *)
Definition fp_exp2 (EXP : Z) (x : FixedPoint) : FixedPoint :=
  mkFixedPoint (width x) (place x + EXP) (significand x).

(** The parameters of [round_result_t<EXTRA_WIDTH, LSB_PLACE>]. *)
Definition round_result_width (WIDTH PLACE EXTRA_WIDTH LSB_PLACE : Z) : Z :=
  if PLACE >=? LSB_PLACE then WIDTH
  else if WIDTH + PLACE <=? 1 + LSB_PLACE then std_max 2 (1 + EXTRA_WIDTH)
  else WIDTH + PLACE + EXTRA_WIDTH - LSB_PLACE.

Definition round_result_place (PLACE LSB_PLACE : Z) : Z := std_max PLACE LSB_PLACE.

(** The number of bits of [round_sig_t<EXTRA_WIDTH, LSB_PLACE>]. *)
Definition round_sig_width (WIDTH PLACE EXTRA_WIDTH LSB_PLACE : Z) : Z :=
  round_result_width WIDTH PLACE EXTRA_WIDTH LSB_PLACE + std_max (LSB_PLACE - PLACE) 0.

Definition round_sig_bits (WIDTH PLACE EXTRA_WIDTH LSB_PLACE : Z) : Z :=
  significand_bits (round_sig_width WIDTH PLACE EXTRA_WIDTH LSB_PLACE).

(** [round_common<EXTRA_WIDTH, LSB_PLACE>(func)]; [func] returns a
    [round_sig_t<EXTRA_WIDTH, LSB_PLACE>], and the shifts are those of
    a value of that type at run time. *)
Definition round_common (EXTRA_WIDTH LSB_PLACE : Z) (func : Z -> Z) (x : FixedPoint)
  : FixedPoint :=
  let W := round_result_width (width x) (place x) EXTRA_WIDTH LSB_PLACE in
  let P := round_result_place (place x) LSB_PLACE in
  let Nr := significand_bits W in
  if place x =? P then
    mkFixedPoint W P (sint Nr (significand x))
  else
    let Ns := round_sig_bits (width x) (place x) EXTRA_WIDTH LSB_PLACE in
    let s := func (significand x) in
    let shift := P - place x in
    if s >=? 0 then
      mkFixedPoint W P (sint Nr (sshr Ns s shift))
    else
      mkFixedPoint W P
        (sint Nr (ssub Ns (sneg Ns (sshr Ns (sneg Ns (sadd Ns s 1)) shift)) 1)).

(** The function that each rounding passes to [round_common]. *)
Definition ceil_func (WIDTH PLACE LSB_PLACE : Z) (s0 : Z) : Z :=
  let Ns := round_sig_bits WIDTH PLACE 1 LSB_PLACE in
  let s := sint Ns s0 in
  if PLACE >=? LSB_PLACE then 0
  else
    let FRAC_MASK := MAX_SIGNIFICAND_VALUE (1 + LSB_PLACE - PLACE) in
    sint Ns (sadd (common_bits Ns (significand_bits (1 + LSB_PLACE - PLACE))) s FRAC_MASK).

Definition floor_func (WIDTH PLACE LSB_PLACE : Z) (s0 : Z) : Z :=
  sint (round_sig_bits WIDTH PLACE 1 LSB_PLACE) s0.

Definition trunc_func (WIDTH PLACE LSB_PLACE : Z) (s0 : Z) : Z :=
  let Ns := round_sig_bits WIDTH PLACE 0 LSB_PLACE in
  let s := sint Ns s0 in
  if PLACE >=? LSB_PLACE then 0
  else if s >=? 0 then s
  else
    let FRAC_MASK := MAX_SIGNIFICAND_VALUE (1 + LSB_PLACE - PLACE) in
    sint Ns (sadd (common_bits Ns (significand_bits (1 + LSB_PLACE - PLACE))) s FRAC_MASK).

Definition round_half_to_even_func (WIDTH PLACE LSB_PLACE : Z) (s0 : Z) : Z :=
  let Ns := round_sig_bits WIDTH PLACE 1 LSB_PLACE in
  let s := sint Ns s0 in
  if PLACE >=? LSB_PLACE then 0
  else
    let HALF_MINUS_1 := MAX_SIGNIFICAND_VALUE (LSB_PLACE - PLACE) in
    let result_lsb :=
      if Z.land s (sshl Ns (sint Ns 1) (LSB_PLACE - PLACE)) =? 0
      then 0 else 1 in
    let Nc := common_bits Ns (significand_bits (LSB_PLACE - PLACE)) in
    sint Ns (sadd Nc (sadd Nc s HALF_MINUS_1) result_lsb).

Definition round_half_away_from_zero_func (WIDTH PLACE LSB_PLACE : Z) (s0 : Z) : Z :=
  let Ns := round_sig_bits WIDTH PLACE 1 LSB_PLACE in
  let Nw := significand_bits WIDTH in
  let s := sint Ns s0 in
  if PLACE >=? LSB_PLACE then 0
  else
    let HALF := sint Nw (Z.shiftl (sint Nw 1) (LSB_PLACE - PLACE - 1)) in
    let sign_bit := if s <? 0 then 1 else 0 in
    let Nc := common_bits Ns Nw in
    sint Ns (ssub Nc (sadd Nc s HALF) sign_bit).

Definition round_half_toward_zero_func (WIDTH PLACE LSB_PLACE : Z) (s0 : Z) : Z :=
  let Ns := round_sig_bits WIDTH PLACE 1 LSB_PLACE in
  let Nw := significand_bits WIDTH in
  let s := sint Ns s0 in
  if PLACE >=? LSB_PLACE then 0
  else
    let HALF := sint Nw (Z.shiftl (sint Nw 1) (LSB_PLACE - PLACE - 1)) in
    let sign_bit := if s <? 0 then 1 else 0 in
    let Nc := common_bits Ns Nw in
    sint Ns (ssub Nc (sadd Nc s HALF) (Z.lxor sign_bit 1)).

Definition round_half_up_func (WIDTH PLACE LSB_PLACE : Z) (s0 : Z) : Z :=
  let Ns := round_sig_bits WIDTH PLACE 1 LSB_PLACE in
  let Nw := significand_bits WIDTH in
  let s := sint Ns s0 in
  if PLACE >=? LSB_PLACE then 0
  else
    let HALF := sint Nw (Z.shiftl (sint Nw 1) (LSB_PLACE - PLACE - 1)) in
    sint Ns (sadd (common_bits Ns Nw) s HALF).

Definition round_half_down_func (WIDTH PLACE LSB_PLACE : Z) (s0 : Z) : Z :=
  let Ns := round_sig_bits WIDTH PLACE 1 LSB_PLACE in
  let s := sint Ns s0 in
  if PLACE >=? LSB_PLACE then 0
  else
    let HALF_MINUS_1 := MAX_SIGNIFICAND_VALUE (LSB_PLACE - PLACE) in
    sint Ns (sadd (common_bits Ns (significand_bits (LSB_PLACE - PLACE))) s HALF_MINUS_1).

(** The eight rounding functions, [LSB_PLACE] being their template
    argument. *)
Definition ceil (LSB_PLACE : Z) (x : FixedPoint) : FixedPoint :=
  round_common 1 LSB_PLACE (ceil_func (width x) (place x) LSB_PLACE) x.

Definition floor (LSB_PLACE : Z) (x : FixedPoint) : FixedPoint :=
  round_common 1 LSB_PLACE (floor_func (width x) (place x) LSB_PLACE) x.

Definition trunc (LSB_PLACE : Z) (x : FixedPoint) : FixedPoint :=
  round_common 0 LSB_PLACE (trunc_func (width x) (place x) LSB_PLACE) x.

Definition round_half_to_even (LSB_PLACE : Z) (x : FixedPoint) : FixedPoint :=
  round_common 1 LSB_PLACE (round_half_to_even_func (width x) (place x) LSB_PLACE) x.

Definition round_half_away_from_zero (LSB_PLACE : Z) (x : FixedPoint) : FixedPoint :=
  round_common 1 LSB_PLACE (round_half_away_from_zero_func (width x) (place x) LSB_PLACE) x.

Definition round_half_toward_zero (LSB_PLACE : Z) (x : FixedPoint) : FixedPoint :=
  round_common 1 LSB_PLACE (round_half_toward_zero_func (width x) (place x) LSB_PLACE) x.

Definition round_half_up (LSB_PLACE : Z) (x : FixedPoint) : FixedPoint :=
  round_common 1 LSB_PLACE (round_half_up_func (width x) (place x) LSB_PLACE) x.

Definition round_half_down (LSB_PLACE : Z) (x : FixedPoint) : FixedPoint :=
  round_common 1 LSB_PLACE (round_half_down_func (width x) (place x) LSB_PLACE) x.

(** The results of the eight roundings of a value, in the order in which
    the class declares them. *)
Definition roundings (LSB_PLACE : Z) (x : FixedPoint) : list FixedPoint :=
  ceil LSB_PLACE x :: floor LSB_PLACE x :: trunc LSB_PLACE x
  :: round_half_to_even LSB_PLACE x :: round_half_away_from_zero LSB_PLACE x
  :: round_half_toward_zero LSB_PLACE x :: round_half_up LSB_PLACE x
  :: round_half_down LSB_PLACE x :: nil.

Definition get_significand (x : FixedPoint) : Z := significand x.

(** [set_significand(v)] for an integer [v]. *)
Definition set_significand (x : FixedPoint) (v : Z) : FixedPoint :=
  mkFixedPoint (width x) (place x)
    (sint (significand_bits (width x)) (clamp_significand (width x) v)).

(** ** FixedPointComplex.h *)

(** A value of [Complex<T>]; both parts are of the type [T]. *)
Record Complex : Set := mkComplex {
  real : FixedPoint;
  imag : FixedPoint
}.

Definition Complex_add (a op2 : Complex) : Complex :=
  mkComplex (add (real a) (real op2)) (add (imag a) (imag op2)).

Definition Complex_sub (a op2 : Complex) : Complex :=
  mkComplex (sub (real a) (real op2)) (sub (imag a) (imag op2)).

Definition Complex_mul (a op2 : Complex) : Complex :=
  mkComplex (sub (mul (real a) (real op2)) (mul (imag a) (imag op2)))
            (add (mul (real a) (imag op2)) (mul (imag a) (real op2))).

(** ** fixed_numeric.h *)

(** What a call of a function that may throw comes to. *)
Inductive outcome : Set :=
  | Returns (v : Z)
  | Throws_range_error.

(** The static assertion of the three adders. *)
Definition static_assert_adder (WIDTH1 WIDTH2 : Z) : bool := WIDTH1 >=? WIDTH2.

(** The type in which [accumulator + increment.get_significand()] is
    computed. *)
Definition adder_sum_bits (WIDTH1 WIDTH2 : Z) : Z :=
  common_bits (significand_bits WIDTH1) (significand_bits WIDTH2).

Definition int_adder (WIDTH1 : Z) (accumulator : Z) (increment : FixedPoint) : Z :=
  let N1 := significand_bits WIDTH1 in
  let Ns := adder_sum_bits WIDTH1 (width increment) in
  let result := sadd Ns accumulator (get_significand increment) in
  let UMASK := uint N1 (MAX_SIGNIFICAND_VALUE WIDTH1) in
  let result' :=
    if Z.land (uint Ns result) (uint N1 (UMASK + 1)) =? 0
    then sint Ns (Z.land (uint Ns result) UMASK)
    else sint Ns (Z.lor (uint Ns result) (uint N1 (Z.lnot UMASK))) in
  sint N1 result'.

Definition exact_adder (WIDTH1 : Z) (accumulator : Z) (increment : FixedPoint)
  : outcome :=
  let N1 := significand_bits WIDTH1 in
  let Nr := significand_bits (WIDTH1 + 1) in
  let Ns := adder_sum_bits WIDTH1 (width increment) in
  let result := sint Nr (sadd Ns accumulator (get_significand increment)) in
  let SIGN_MASK := uint Nr (Z.lnot (uint Nr (MAX_SIGNIFICAND_VALUE WIDTH1))) in
  if negb (Z.land (uint Nr result) SIGN_MASK =? 0)
     && negb (Z.land (uint Nr result) SIGN_MASK =? SIGN_MASK)
  then Throws_range_error
  else Returns (sint N1 result).

Definition clamp_adder (WIDTH1 : Z) (accumulator : Z) (increment : FixedPoint) : Z :=
  let N1 := significand_bits WIDTH1 in
  let Nr := significand_bits (WIDTH1 + 1) in
  let Ns := adder_sum_bits WIDTH1 (width increment) in
  let result := sint Nr (sadd Ns accumulator (get_significand increment)) in
  clamp WIDTH1 (sint N1 result).

End Embedding.

(** ** What the theorems speak of *)

(** The real number a value stands for: significand * 2^place. *)
Definition real_value (x : FixedPoint) : Q :=
  inject_Z (significand x) * (2 # 1) ^ place x.

(** The legal range of a significand of the given width. *)
Definition legal_significand (WIDTH s : Z) : Prop :=
  - (2 ^ (WIDTH - 1) - 1) <= s <= 2 ^ (WIDTH - 1) - 1.

Definition legal (x : FixedPoint) : Prop := legal_significand (width x) (significand x).

(** A value of a type that compiles. *)
Definition well_typed (x : FixedPoint) : Prop :=
  static_assert_FixedPoint (width x) (place x) = true.


(** * The rest of the interface *)

Section Interface.
Variable pf : Platform.

(** ** FixedPoint.h: assignment, unary and relational operators *)

(** [operator=] from a narrower type: the source goes through the
    constructor from a narrower type, with its static assertion. *)
Definition assign (x src : FixedPoint) : FixedPoint :=
  let src_ext := from_narrower pf (width x) (place x) src in
  mkFixedPoint (width x) (place x) (significand src_ext).

(** Unary [operator+]. *)
Definition op_plus (x : FixedPoint) : FixedPoint := x.

(** [operator!]. *)
Definition op_not (x : FixedPoint) : bool := significand x =? 0.

(** The parameters of [superset_t<WIDTH2, PLACE2>], the extra width being
    left at its default. *)
Definition superset_t_width (WIDTH PLACE WIDTH2 PLACE2 : Z) : Z :=
  superset_width WIDTH PLACE WIDTH2 PLACE2 0.

Definition superset_t_place (PLACE PLACE2 : Z) : Z := std_min PLACE PLACE2.

(** The six relational operators: both operands are converted to the
    superset type and their significands are compared. *)
Definition op_eq (a op2 : FixedPoint) : bool :=
  let W := superset_t_width (width a) (place a) (width op2) (place op2) in
  let P := superset_t_place (place a) (place op2) in
  let op1 := from_narrower pf W P a in
  let op2_ext := from_narrower pf W P op2 in
  significand op1 =? significand op2_ext.

Definition op_ne (a op2 : FixedPoint) : bool :=
  let W := superset_t_width (width a) (place a) (width op2) (place op2) in
  let P := superset_t_place (place a) (place op2) in
  let op1 := from_narrower pf W P a in
  let op2_ext := from_narrower pf W P op2 in
  negb (significand op1 =? significand op2_ext).

Definition op_lt (a op2 : FixedPoint) : bool :=
  let W := superset_t_width (width a) (place a) (width op2) (place op2) in
  let P := superset_t_place (place a) (place op2) in
  let op1 := from_narrower pf W P a in
  let op2_ext := from_narrower pf W P op2 in
  significand op1 <? significand op2_ext.

Definition op_le (a op2 : FixedPoint) : bool :=
  let W := superset_t_width (width a) (place a) (width op2) (place op2) in
  let P := superset_t_place (place a) (place op2) in
  let op1 := from_narrower pf W P a in
  let op2_ext := from_narrower pf W P op2 in
  significand op1 <=? significand op2_ext.

Definition op_gt (a op2 : FixedPoint) : bool :=
  let W := superset_t_width (width a) (place a) (width op2) (place op2) in
  let P := superset_t_place (place a) (place op2) in
  let op1 := from_narrower pf W P a in
  let op2_ext := from_narrower pf W P op2 in
  significand op1 >? significand op2_ext.

Definition op_ge (a op2 : FixedPoint) : bool :=
  let W := superset_t_width (width a) (place a) (width op2) (place op2) in
  let P := superset_t_place (place a) (place op2) in
  let op1 := from_narrower pf W P a in
  let op2_ext := from_narrower pf W P op2 in
  significand op1 >=? significand op2_ext.

(** ** FixedPointComplex.h: the other members of [Complex] *)

(** [Complex(re, im)] out of two narrower values: each part goes through
    the constructor of [T] from a narrower type. *)
Definition Complex_from_narrower (WIDTH PLACE : Z) (re im : FixedPoint) : Complex :=
  mkComplex (from_narrower pf WIDTH PLACE re) (from_narrower pf WIDTH PLACE im).

(** [Complex(double re, double im)]. *)
Definition Complex_from_double (mode : rounding_mode) (WIDTH PLACE : Z)
  (re im : double) : option Complex :=
  match from_double pf mode WIDTH PLACE re, from_double pf mode WIDTH PLACE im with
  | Some r, Some i => Some (mkComplex r i)
  | _, _ => None
  end.

(** [dbl()], and the conversion to [std::complex<double>]: the two parts
    as doubles. *)
Definition Complex_dbl (mode : rounding_mode) (a : Complex) : double * double :=
  (to_double mode (real a), to_double mode (imag a)).

(** [apply_mf(mf)]: a member function of [T] applied to both parts. *)
Definition apply_mf (mf : FixedPoint -> FixedPoint) (a : Complex) : Complex :=
  let re := mf (real a) in
  let im := mf (imag a) in
  mkComplex re im.

(** [operator bool()] and [operator!]. *)
Definition Complex_to_bool (a : Complex) : bool :=
  to_bool (real a) || to_bool (imag a).

Definition Complex_not (a : Complex) : bool := negb (Complex_to_bool a).

(** Unary [operator-]. *)
Definition Complex_neg (a : Complex) : Complex :=
  mkComplex (neg pf (real a)) (neg pf (imag a)).

(** [operator==] and [operator!=]. *)
Definition Complex_eq (a op2 : Complex) : bool :=
  op_eq (real a) (real op2) && op_eq (imag a) (imag op2).

Definition Complex_ne (a op2 : Complex) : bool := negb (Complex_eq a op2).

(** The math functions. *)
Definition Complex_norm (a : Complex) : FixedPoint :=
  add pf (mul pf (real a) (real a)) (mul pf (imag a) (imag a)).

Definition Complex_conj (a : Complex) : Complex :=
  mkComplex (real a) (neg pf (imag a)).

Definition Complex_inphase (a ref : Complex) : FixedPoint :=
  add pf (mul pf (real a) (real ref)) (mul pf (imag a) (imag ref)).

Definition Complex_quadrature (a ref : Complex) : FixedPoint :=
  sub pf (mul pf (imag a) (real ref)) (mul pf (real a) (imag ref)).

Definition Complex_mult_i (a : Complex) : Complex :=
  mkComplex (neg pf (imag a)) (real a).

(** The roundings of [Complex] round both parts. *)
Definition Complex_ceil (LSB_PLACE : Z) (a : Complex) : Complex :=
  apply_mf (ceil pf LSB_PLACE) a.

Definition Complex_floor (LSB_PLACE : Z) (a : Complex) : Complex :=
  apply_mf (floor pf LSB_PLACE) a.

Definition Complex_trunc (LSB_PLACE : Z) (a : Complex) : Complex :=
  apply_mf (trunc pf LSB_PLACE) a.

Definition Complex_round_half_to_even (LSB_PLACE : Z) (a : Complex) : Complex :=
  apply_mf (round_half_to_even pf LSB_PLACE) a.

Definition Complex_round_half_away_from_zero (LSB_PLACE : Z) (a : Complex) : Complex :=
  apply_mf (round_half_away_from_zero pf LSB_PLACE) a.

Definition Complex_round_half_toward_zero (LSB_PLACE : Z) (a : Complex) : Complex :=
  apply_mf (round_half_toward_zero pf LSB_PLACE) a.

Definition Complex_round_half_up (LSB_PLACE : Z) (a : Complex) : Complex :=
  apply_mf (round_half_up pf LSB_PLACE) a.

Definition Complex_round_half_down (LSB_PLACE : Z) (a : Complex) : Complex :=
  apply_mf (round_half_down pf LSB_PLACE) a.

(** ** fixed_numeric.h: accumulation *)

(** [significand_adder<T>] for [T] a signed integer type of [T_bits]
    bits that is not narrower than [int]: the sum is made in the common
    type of [T] and the type of the significand, and returned as a [T]. *)
Definition significand_adder (T_bits : Z) (accumulator : Z) (increment : FixedPoint)
  : Z :=
  sint T_bits
    (sadd (common_bits T_bits (significand_bits pf (width increment)))
          accumulator (get_significand increment)).

(** [std::accumulate(first, last, init, op)] of <numeric>, the range
    being given as the list of its elements. *)
Definition accumulate {A B : Type} (range : list B) (init : A) (op : A -> B -> A) : A :=
  fold_left op range init.

(** [std::accumulate] with an operation that may throw: the exception
    leaves the loop. *)
Fixpoint accumulate_throwing (range : list FixedPoint) (init : Z)
  (op : Z -> FixedPoint -> outcome) : outcome :=
  match range with
  | nil => Returns init
  | increment :: rest =>
      match op init increment with
      | Returns acc => accumulate_throwing rest acc op
      | Throws_range_error => Throws_range_error
      end
  end.

End Interface.

(** ** The earlier revision of FixedPoint.h, in fixed_numeric.h *)

(** fixed_numeric.h carries the revision of the class that its adders
    were written for.  Its members clamp with [clamp] of limit.h, and
    its roundings are to integers only. *)
Module Earlier.
Section Embedding.
Variable pf : Platform.

(** [set_significand(i)]: the parameter is a [significand_t<WIDTH>]. *)
Definition set_significand (x : FixedPoint) (i : Z) : FixedPoint :=
  mkFixedPoint (width x) (place x)
    (clamp pf (width x) (sint (significand_bits pf (width x)) i)).

(** [reduce_dynamic_range<DEST_WIDTH>()]: the significand is converted
    to the parameter type of [clamp<DEST_WIDTH>]. *)
Definition reduce_dynamic_range (DEST_WIDTH : Z) (x : FixedPoint) : FixedPoint :=
  mkFixedPoint DEST_WIDTH (place x)
    (clamp pf DEST_WIDTH (sint (significand_bits pf DEST_WIDTH) (significand x))).

Definition get_width (x : FixedPoint) : Z := width x.
Definition get_place (x : FixedPoint) : Z := place x.

End Embedding.
End Earlier.

(** ** What the theorems on doubles and on complex numbers speak of *)

(** The rational number that a finite double stands for. *)
Definition double_value (x : double) : option Q :=
  match x with
  | S754_zero _ => Some 0%Q
  | S754_finite s m e => Some (inject_Z (cond_Zopp s (Zpos m)) * (2 # 1) ^ e)%Q
  | _ => None
  end.

(** The real and the imaginary part of the complex number a value stands
    for. *)
Definition complex_value (z : Complex) : Q * Q :=
  (real_value (real z), real_value (imag z)).

(** Both parts of a [Complex<T>] are of the one type [T]. *)
Definition Complex_typed (z : Complex) : Prop :=
  well_typed (real z) /\
  width (imag z) = width (real z) /\ place (imag z) = place (real z).

Definition Complex_legal (z : Complex) : Prop := legal (real z) /\ legal (imag z).

(** The sum of the significands of a range. *)
Definition sum_significands (range : list FixedPoint) : Z :=
  fold_right (fun x acc => significand x + acc) 0 range.

(** The sums that an accumulation from [init] passes through. *)
Fixpoint partial_sums (init : Z) (range : list FixedPoint) : list Z :=
  match range with
  | nil => nil
  | increment :: rest =>
      (init + significand increment)
      :: partial_sums (init + significand increment) rest
  end.

(** An increment that one of the adders of width WIDTH1 takes. *)
Definition adder_increment (WIDTH1 : Z) (increment : FixedPoint) : Prop :=
  2 <= width increment /\
  static_assert_adder WIDTH1 (width increment) = true /\
  legal increment.
(** * Properties *)

(** ** Facts on machine integers *)

Lemma pow2_pos (n : Z) : 0 <= n -> 0 < 2 ^ n.
Proof. intros; apply Z.pow_pos_nonneg; lia. Qed.

Lemma pow2_split (n : Z) : 0 < n -> 2 ^ n = 2 * 2 ^ (n - 1).
Proof.
  intros Hn. replace n with (Z.succ (n - 1)) at 1 by lia.
  rewrite Z.pow_succ_r by lia. reflexivity.
Qed.

Lemma pow2_le (a b : Z) : 0 <= a <= b -> 2 ^ a <= 2 ^ b.
Proof. intros; apply Z.pow_le_mono_r; lia. Qed.

Lemma pow2_lt (a b : Z) : 0 <= a < b -> 2 ^ a < 2 ^ b.
Proof. intros; apply Z.pow_lt_mono_r; lia. Qed.

Lemma pow2_add (a b : Z) : 0 <= a -> 0 <= b -> 2 ^ (a + b) = 2 ^ a * 2 ^ b.
Proof. intros; apply Z.pow_add_r; lia. Qed.

Lemma sint_id (N x : Z) :
  0 < N -> - 2 ^ (N - 1) <= x < 2 ^ (N - 1) -> sint N x = x.
Proof.
  intros HN Hx. unfold sint.
  rewrite Z.mod_small; [lia|].
  rewrite (pow2_split N HN). lia.
Qed.

Lemma sint_range (N x : Z) :
  0 < N -> - 2 ^ (N - 1) <= sint N x < 2 ^ (N - 1).
Proof.
  intros HN. unfold sint.
  pose proof (Z.mod_pos_bound (x + 2 ^ (N - 1)) (2 ^ N) (pow2_pos N ltac:(lia))).
  rewrite (pow2_split N HN) in *. lia.
Qed.

Lemma sint_congr (N x : Z) : 0 < N -> exists k, sint N x = x + k * 2 ^ N.
Proof.
  intros HN. unfold sint.
  pose proof (pow2_pos N ltac:(lia)) as Hp.
  exists (- ((x + 2 ^ (N - 1)) / 2 ^ N)).
  rewrite (Z.mod_eq (x + 2 ^ (N - 1)) (2 ^ N)) by lia. lia.
Qed.

Lemma uint_id (N x : Z) : 0 <= x < 2 ^ N -> uint N x = x.
Proof. intros; unfold uint; apply Z.mod_small; assumption. Qed.

Lemma std_max_spec (a b : Z) : std_max a b = Z.max a b.
Proof. unfold std_max; destruct (Z.ltb_spec a b); lia. Qed.

Lemma std_min_spec (a b : Z) : std_min a b = Z.min a b.
Proof. unfold std_min; destruct (Z.ltb_spec b a); lia. Qed.

(** A value that is legal for a width lies in every signed type of at
    least that many bits. *)
Lemma legal_in_bits (W N s : Z) :
  1 <= W <= N -> legal_significand W s -> - 2 ^ (N - 1) <= s < 2 ^ (N - 1).
Proof.
  intros HW [Hlo Hhi].
  assert (2 ^ (W - 1) <= 2 ^ (N - 1)) by (apply pow2_le; lia).
  lia.
Qed.

(** The reading of the static assertions. *)
Lemma static_assert_FixedPoint_spec (W P : Z) :
  static_assert_FixedPoint W P = true <->
  2 <= W <= 54 /\ -1022 <= P /\ W + P <= 1024.
Proof.
  unfold static_assert_FixedPoint, MIN_BIT_WIDTH, MAX_BIT_WIDTH,
    MIN_LSB_PLACE, MAX_MSB_PLACE.
  rewrite !andb_true_iff, !Z.leb_le. lia.
Qed.

Lemma static_assert_narrower_spec (W P Ws Ps : Z) :
  static_assert_narrower W P Ws Ps = true <-> P <= Ps /\ Ws + Ps <= W + P.
Proof.
  unfold static_assert_narrower.
  rewrite andb_true_iff, Z.leb_le, Z.geb_le. lia.
Qed.

Section Facts.
Variable pf : Platform.
Hypothesis Hpf : conforming pf.

Lemma significand_bits_ge32 (W : Z) : 32 <= significand_bits pf W.
Proof.
  destruct Hpf as (H32 & H64 & _). unfold significand_bits.
  destruct (W >? 32); lia.
Qed.

(** A width up to 64 fits the type chosen for it. *)
Lemma significand_bits_fits (W : Z) : W <= 64 -> W <= significand_bits pf W.
Proof.
  destruct Hpf as (H32 & H64 & _). unfold significand_bits.
  destruct (Z.gtb_spec W 32); lia.
Qed.

Lemma significand_bits_mono (W1 W2 : Z) :
  W1 <= W2 -> significand_bits pf W1 <= significand_bits pf W2.
Proof.
  destruct Hpf as (H32 & H64 & Hle). unfold significand_bits.
  destruct (Z.gtb_spec W1 32), (Z.gtb_spec W2 32); lia.
Qed.

Lemma MAX_SIGNIFICAND_VALUE_eq (W : Z) :
  1 <= W <= 64 -> MAX_SIGNIFICAND_VALUE pf W = 2 ^ (W - 1) - 1.
Proof.
  intros HW. unfold MAX_SIGNIFICAND_VALUE.
  pose proof (significand_bits_fits W ltac:(lia)) as Hfit.
  pose proof (significand_bits_ge32 W) as H32.
  set (N := significand_bits pf W) in *.
  assert (H1 : 1 < 2 ^ N) by (change 1 with (2 ^ 0) at 1; apply pow2_lt; lia).
  assert (Hlt : 2 ^ (W - 1) < 2 ^ N) by (apply pow2_lt; lia).
  assert (Hpos : 0 < 2 ^ (W - 1)) by (apply pow2_pos; lia).
  rewrite (uint_id N 1) by lia.
  rewrite Z.shiftl_1_l.
  rewrite (uint_id N (2 ^ (W - 1))) by lia.
  rewrite uint_id by lia.
  apply sint_id; [lia|].
  assert (2 ^ (W - 1) <= 2 ^ (N - 1)) by (apply pow2_le; lia).
  lia.
Qed.

Lemma MIN_SIGNIFICAND_VALUE_eq (W : Z) :
  1 <= W <= 64 -> MIN_SIGNIFICAND_VALUE pf W = - (2 ^ (W - 1) - 1).
Proof.
  intros HW. unfold MIN_SIGNIFICAND_VALUE, sneg.
  rewrite MAX_SIGNIFICAND_VALUE_eq by assumption.
  pose proof (significand_bits_fits W ltac:(lia)) as Hfit.
  pose proof (significand_bits_ge32 W) as H32.
  assert (Hpos : 0 < 2 ^ (W - 1)) by (apply pow2_pos; lia).
  assert (2 ^ (W - 1) <= 2 ^ (significand_bits pf W - 1)) by (apply pow2_le; lia).
  apply sint_id; lia.
Qed.

(** [clamp] always lands in the legal range, whatever it is given. *)
Lemma clamp_legal (W i : Z) : 1 <= W <= 64 -> legal_significand W (clamp pf W i).
Proof.
  intros HW. unfold clamp, legal_significand.
  rewrite MAX_SIGNIFICAND_VALUE_eq, MIN_SIGNIFICAND_VALUE_eq by assumption.
  assert (Hpos : 0 < 2 ^ (W - 1)) by (apply pow2_pos; lia).
  destruct (Z.gtb_spec i (2 ^ (W - 1) - 1)); [lia|].
  destruct (Z.ltb_spec i (- (2 ^ (W - 1) - 1))); lia.
Qed.

Lemma clamp_id (W i : Z) :
  1 <= W <= 64 -> legal_significand W i -> clamp pf W i = i.
Proof.
  intros HW [Hlo Hhi]. unfold clamp.
  rewrite MAX_SIGNIFICAND_VALUE_eq, MIN_SIGNIFICAND_VALUE_eq by assumption.
  destruct (Z.gtb_spec i (2 ^ (W - 1) - 1)); [lia|].
  destruct (Z.ltb_spec i (- (2 ^ (W - 1) - 1))); lia.
Qed.

Lemma clamp_significand_legal (W v : Z) :
  1 <= W -> legal_significand W (clamp_significand W v).
Proof.
  intros HW. unfold clamp_significand, legal_significand.
  assert (Hpos : 0 < 2 ^ (W - 1)) by (apply pow2_pos; lia).
  destruct (Z.gtb_spec v (2 ^ (W - 1) - 1)); [lia|].
  destruct (Z.ltb_spec v (- (2 ^ (W - 1) - 1))); lia.
Qed.

(** A legal significand is unchanged by its own storage type. *)
Lemma sint_legal (W N s : Z) :
  1 <= W <= N -> legal_significand W s -> sint N s = s.
Proof.
  intros HW Hs. apply sint_id; [lia|]. eapply legal_in_bits; eauto.
Qed.

(** ** Conversion from a narrower type, and the binary operators *)

Lemma scaled_bound (ws s k : Z) :
  1 <= ws -> 0 <= k -> legal_significand ws s ->
  - (2 ^ (ws - 1 + k) - 2 ^ k) <= s * 2 ^ k <= 2 ^ (ws - 1 + k) - 2 ^ k.
Proof.
  intros Hws Hk [Hlo Hhi].
  rewrite pow2_add by lia.
  pose proof (pow2_pos k Hk). nia.
Qed.

Lemma scaled_legal (ws W s k : Z) :
  1 <= ws -> 0 <= k -> ws + k <= W -> legal_significand ws s ->
  legal_significand W (s * 2 ^ k).
Proof.
  intros Hws Hk HW Hs.
  pose proof (scaled_bound ws s k Hws Hk Hs) as Hb.
  pose proof (pow2_pos k Hk).
  assert (2 ^ (ws - 1 + k) <= 2 ^ (W - 1)) by (apply pow2_le; lia).
  unfold legal_significand. lia.
Qed.

(** The constructor from a narrower type shifts the significand to the
    new place, and loses nothing. *)
Lemma from_narrower_significand (W P : Z) (src : FixedPoint) :
  2 <= W <= 64 -> 2 <= width src ->
  static_assert_narrower W P (width src) (place src) = true ->
  legal src ->
  significand (from_narrower pf W P src) = significand src * 2 ^ (place src - P).
Proof.
  intros HW Hws Hn Hs. apply static_assert_narrower_spec in Hn.
  unfold from_narrower, smul; cbn [significand].
  pose proof (significand_bits_fits W ltac:(lia)) as Hfit.
  set (N := significand_bits pf W) in *.
  set (k := place src - P).
  assert (Hk : 0 <= k <= W - 2) by (unfold k; lia).
  rewrite (sint_legal (width src) N (significand src)) by (auto; lia).
  assert (H1 : 1 < 2 ^ (N - 1))
    by (change 1 with (2 ^ 0) at 1; apply pow2_lt; lia).
  rewrite (sint_id N 1) by lia.
  rewrite Z.shiftl_1_l.
  assert (Hp : 2 ^ k < 2 ^ (N - 1)) by (apply pow2_lt; lia).
  pose proof (pow2_pos k ltac:(lia)) as Hpk.
  rewrite (sint_id N (2 ^ k)) by lia.
  apply (sint_legal W); [lia|].
  apply (scaled_legal (width src)); auto; unfold k; lia.
Qed.

(** The range of a sum or a difference of two operands brought to the
    common place: the width that [addition_result_t] gives is enough,
    with the extra bit and, where the bit ranges do not overlap, without
    it. *)
Lemma addition_fits (wa pa sa wb pb sb : Z) :
  2 <= wa -> 2 <= wb -> legal_significand wa sa -> legal_significand wb sb ->
  let m := Z.min pa pb in
  let W := addition_result_width wa pa wb pb in
  legal_significand W (sa * 2 ^ (pa - m) + sb * 2 ^ (pb - m)) /\
  legal_significand W (sa * 2 ^ (pa - m) - sb * 2 ^ (pb - m)).
Proof.
  intros Hwa Hwb Ha Hb m W.
  set (ka := pa - m). set (kb := pb - m).
  assert (Hka : 0 <= ka) by (unfold ka, m; lia).
  assert (Hkb : 0 <= kb) by (unfold kb, m; lia).
  pose proof (scaled_bound wa sa ka ltac:(lia) Hka Ha) as Ba.
  pose proof (scaled_bound wb sb kb ltac:(lia) Hkb Hb) as Bb.
  pose proof (pow2_pos ka Hka) as Pa.
  pose proof (pow2_pos kb Hkb) as Pb.
  unfold legal_significand.
  assert (HW : 2 ^ (wa - 1 + ka) - 2 ^ ka + (2 ^ (wb - 1 + kb) - 2 ^ kb)
               <= 2 ^ (W - 1) - 1); [|lia].
  unfold W, addition_result_width, superset_width.
  rewrite std_max_spec, std_min_spec. fold m.
  destruct (Z.geb_spec pa (wb + pb - 1)) as [H1|H1]; cbn [orb].
  - (* the second operand lies below the first one *)
    assert (kb = 0) by (unfold kb, m; lia).
    replace (Z.max (wa + pa) (wb + pb) - m + 0 - 1) with (wa - 1 + ka)
      by (unfold ka, m; lia).
    assert (2 ^ (wb - 1 + kb) <= 2 ^ ka) by (apply pow2_le; unfold ka, m; lia).
    replace (2 ^ kb) with 1 by (subst kb; rewrite H; reflexivity). lia.
  - destruct (Z.geb_spec pb (wa + pa - 1)) as [H2|H2].
    + (* the first operand lies below the second one *)
      assert (ka = 0) by (unfold ka, m; lia).
      replace (Z.max (wa + pa) (wb + pb) - m + 0 - 1) with (wb - 1 + kb)
        by (unfold kb, m; lia).
      assert (2 ^ (wa - 1 + ka) <= 2 ^ kb) by (apply pow2_le; unfold kb, m; lia).
      replace (2 ^ ka) with 1 by (subst ka; rewrite H; reflexivity). lia.
    + (* the bit ranges overlap: one more bit *)
      set (M := Z.max (wa + ka) (wb + kb)).
      replace (Z.max (wa + pa) (wb + pb) - m + 1 - 1) with M
        by (unfold M, ka, kb; lia).
      assert (HM : 2 ^ M = 2 * 2 ^ (M - 1)) by (apply pow2_split; unfold M; lia).
      assert (2 ^ (wa - 1 + ka) <= 2 ^ (M - 1)) by (apply pow2_le; unfold M; lia).
      assert (2 ^ (wb - 1 + kb) <= 2 ^ (M - 1)) by (apply pow2_le; unfold M; lia).
      lia.
Qed.

Lemma multiplication_fits (wa sa wb sb : Z) :
  2 <= wa -> 2 <= wb -> legal_significand wa sa -> legal_significand wb sb ->
  legal_significand (multiplication_result_width wa wb) (sa * sb).
Proof.
  intros Hwa Hwb [Ha1 Ha2] [Hb1 Hb2].
  unfold legal_significand, multiplication_result_width.
  replace (wa + wb - 1 - 1) with ((wa - 1) + (wb - 1)) by lia.
  rewrite pow2_add by lia.
  pose proof (pow2_pos (wa - 1) ltac:(lia)).
  pose proof (pow2_pos (wb - 1) ltac:(lia)).
  nia.
Qed.

(** The width of the result type of [+] and [-] takes both operands. *)
Lemma addition_result_narrower (wa pa wb pb : Z) :
  let W := addition_result_width wa pa wb pb in
  let P := addition_result_place pa pb in
  static_assert_narrower W P wa pa = true /\
  static_assert_narrower W P wb pb = true.
Proof.
  cbv zeta. rewrite !static_assert_narrower_spec.
  unfold addition_result_width, addition_result_place, superset_width.
  rewrite std_max_spec, std_min_spec.
  destruct (_ || _); lia.
Qed.

(** The significands that [+], [-] and [*] compute. *)
Lemma add_significand (a b : FixedPoint) :
  2 <= width a -> 2 <= width b -> legal a -> legal b ->
  addition_result_width (width a) (place a) (width b) (place b) <= 64 ->
  let m := Z.min (place a) (place b) in
  significand (add pf a b)
  = significand a * 2 ^ (place a - m) + significand b * 2 ^ (place b - m).
Proof.
  intros Hwa Hwb Ha Hb HW m.
  pose proof (addition_result_narrower (width a) (place a) (width b) (place b))
    as [Hna Hnb]; cbv zeta in Hna, Hnb.
  pose proof (addition_fits _ (place a) _ _ (place b) _ Hwa Hwb Ha Hb) as [Hfit _];
    cbv zeta in Hfit.
  unfold add, sadd; cbn [significand].
  set (W := addition_result_width (width a) (place a) (width b) (place b)) in *.
  assert (HW2 : 2 <= W).
  { apply static_assert_narrower_spec in Hna.
    unfold addition_result_place in Hna. rewrite std_min_spec in Hna. lia. }
  rewrite !from_narrower_significand by (auto; lia).
  unfold addition_result_place; rewrite std_min_spec; fold m.
  apply (sint_legal W); [|exact Hfit].
  pose proof (significand_bits_fits W HW). lia.
Qed.

Lemma sub_significand (a b : FixedPoint) :
  2 <= width a -> 2 <= width b -> legal a -> legal b ->
  addition_result_width (width a) (place a) (width b) (place b) <= 64 ->
  let m := Z.min (place a) (place b) in
  significand (sub pf a b)
  = significand a * 2 ^ (place a - m) - significand b * 2 ^ (place b - m).
Proof.
  intros Hwa Hwb Ha Hb HW m.
  pose proof (addition_result_narrower (width a) (place a) (width b) (place b))
    as [Hna Hnb]; cbv zeta in Hna, Hnb.
  pose proof (addition_fits _ (place a) _ _ (place b) _ Hwa Hwb Ha Hb) as [_ Hfit];
    cbv zeta in Hfit.
  unfold sub, ssub; cbn [significand].
  set (W := addition_result_width (width a) (place a) (width b) (place b)) in *.
  assert (HW2 : 2 <= W).
  { apply static_assert_narrower_spec in Hna.
    unfold addition_result_place in Hna. rewrite std_min_spec in Hna. lia. }
  rewrite !from_narrower_significand by (auto; lia).
  unfold addition_result_place; rewrite std_min_spec; fold m.
  apply (sint_legal W); [|exact Hfit].
  pose proof (significand_bits_fits W HW). lia.
Qed.

Lemma mul_significand (a b : FixedPoint) :
  2 <= width a -> 2 <= width b -> legal a -> legal b ->
  multiplication_result_width (width a) (width b) <= 64 ->
  significand (mul pf a b) = significand a * significand b.
Proof.
  intros Hwa Hwb Ha Hb HW.
  pose proof (multiplication_fits _ _ _ _ Hwa Hwb Ha Hb) as Hfit.
  unfold mul, smul; cbn [significand].
  set (W := multiplication_result_width (width a) (width b)) in *.
  assert (HW2 : width a <= W /\ width b <= W)
    by (unfold W, multiplication_result_width; lia).
  pose proof (significand_bits_fits W HW) as HN.
  rewrite (sint_legal (width a) _ (significand a)) by (auto; lia).
  rewrite (sint_legal (width b) _ (significand b)) by (auto; lia).
  apply (sint_legal W); [lia | exact Hfit].
Qed.

(** ** Real values *)

Lemma Q2_nonzero : ~ (2 # 1 == 0)%Q.
Proof. intros H; discriminate H. Qed.

Lemma inject_pow2 (k : Z) : 0 <= k -> (inject_Z (2 ^ k) == (2 # 1) ^ k)%Q.
Proof. intros Hk. rewrite Zpower_Qpower by assumption. reflexivity. Qed.

Lemma real_value_scaled (s k P : Z) :
  0 <= k ->
  (inject_Z (s * 2 ^ k) * (2 # 1) ^ P == inject_Z s * (2 # 1) ^ (P + k))%Q.
Proof.
  intros Hk.
  rewrite inject_Z_mult, inject_pow2 by assumption.
  rewrite (Qpower_plus (2 # 1) P k Q2_nonzero). ring.
Qed.

Lemma real_value_aligned (s p m : Z) :
  m <= p ->
  (inject_Z (s * 2 ^ (p - m)) * (2 # 1) ^ m == inject_Z s * (2 # 1) ^ p)%Q.
Proof.
  intros Hm. rewrite real_value_scaled by lia.
  replace (m + (p - m)) with p by lia. reflexivity.
Qed.

Lemma inject_Z_sub (x y : Z) : (inject_Z (x - y) == inject_Z x - inject_Z y)%Q.
Proof.
  unfold Z.sub. rewrite inject_Z_plus, inject_Z_opp. reflexivity.
Qed.

(** ** The binary operators are exact *)

(** C1. For operands [a] and [b] of any two types, holding legal
    significands, the real value (significand times 2^place) of [a + b],
    of [a - b] and of [a * b], each at the result type that FixedPoint.h
    derives for it, is exactly the sum, the difference and the product of
    the real values of [a] and [b]: nothing is rounded or clamped. *)
Theorem binary_operators_exact (a b : FixedPoint) :
  well_typed a -> well_typed b -> legal a -> legal b ->
  (static_assert_FixedPoint
     (addition_result_width (width a) (place a) (width b) (place b))
     (addition_result_place (place a) (place b)) = true ->
   (real_value (add pf a b) == real_value a + real_value b)%Q /\
   (real_value (sub pf a b) == real_value a - real_value b)%Q) /\
  (static_assert_FixedPoint
     (multiplication_result_width (width a) (width b))
     (multiplication_result_place (place a) (place b)) = true ->
   (real_value (mul pf a b) == real_value a * real_value b)%Q).
Proof.
  intros Ta Tb La Lb.
  apply static_assert_FixedPoint_spec in Ta, Tb.
  split.
  - intros Tr. apply static_assert_FixedPoint_spec in Tr.
    assert (Hm : addition_result_place (place a) (place b)
                 = Z.min (place a) (place b))
      by (unfold addition_result_place; apply std_min_spec).
    set (m := Z.min (place a) (place b)) in *.
    unfold real_value.
    rewrite add_significand, sub_significand by (auto; lia).
    cbn [add sub place]. rewrite Hm. fold m.
    rewrite <- (real_value_aligned (significand a) (place a) m) by (unfold m; lia).
    rewrite <- (real_value_aligned (significand b) (place b) m) by (unfold m; lia).
    rewrite inject_Z_plus, inject_Z_sub.
    split; ring.
  - intros Tr. apply static_assert_FixedPoint_spec in Tr.
    unfold real_value.
    rewrite mul_significand by (auto; lia).
    cbn [mul place]. unfold multiplication_result_place.
    rewrite (Qpower_plus (2 # 1) (place a) (place b) Q2_nonzero).
    rewrite inject_Z_mult. ring.
Qed.

(** ** The result type of addition and subtraction *)

(** C2. The result of [operator+] and of [operator-] has the place
    min(placeA, placeB) and the width
    max(widthA+placeA, widthB+placeB) - min(placeA, placeB) + extra,
    where extra is 0 if placeA >= widthB+placeB-1 or
    placeB >= widthA+placeA-1, and 1 otherwise. *)
Theorem addition_result_type (a b : FixedPoint) :
  let widthA := width a in let placeA := place a in
  let widthB := width b in let placeB := place b in
  exists extra : Z,
    ((placeA >= widthB + placeB - 1 \/ placeB >= widthA + placeA - 1) -> extra = 0) /\
    (~ (placeA >= widthB + placeB - 1 \/ placeB >= widthA + placeA - 1) -> extra = 1) /\
    place (add pf a b) = Z.min placeA placeB /\
    width (add pf a b)
    = Z.max (widthA + placeA) (widthB + placeB) - Z.min placeA placeB + extra /\
    place (sub pf a b) = Z.min placeA placeB /\
    width (sub pf a b)
    = Z.max (widthA + placeA) (widthB + placeB) - Z.min placeA placeB + extra.
Proof.
  cbv zeta. cbn [add sub width place].
  unfold addition_result_width, addition_result_place, superset_width.
  rewrite std_max_spec, std_min_spec.
  destruct (Z.geb_spec (place a) (width b + place b - 1)) as [H1|H1];
    [|destruct (Z.geb_spec (place b) (width a + place a - 1)) as [H2|H2]];
    cbn [orb].
  - exists 0. repeat split; auto. intros H; exfalso; apply H; lia.
  - exists 0. repeat split; auto. intros H; exfalso; apply H; lia.
  - exists 1. repeat split; auto. intros [H|H]; lia.
Qed.

(** ** The type of a complex product *)

(** C9. The product of a [Complex] whose parts have the type (8, -4) and
    a [Complex] whose parts have the type (7, -5) has parts of width 15
    and place -9: each of the four products of parts has the type
    (14, -9), by the rule of [operator*], and their difference and their
    sum have the type (15, -9), by the rule of [operator-] and
    [operator+]. *)
Theorem complex_product_type (x y : Complex) :
  width (real x) = 8 -> place (real x) = -4 ->
  width (imag x) = 8 -> place (imag x) = -4 ->
  width (real y) = 7 -> place (real y) = -5 ->
  width (imag y) = 7 -> place (imag y) = -5 ->
  (width (mul pf (real x) (real y)) = 14 /\ place (mul pf (real x) (real y)) = -9 /\
   width (mul pf (imag x) (imag y)) = 14 /\ place (mul pf (imag x) (imag y)) = -9 /\
   width (mul pf (real x) (imag y)) = 14 /\ place (mul pf (real x) (imag y)) = -9 /\
   width (mul pf (imag x) (real y)) = 14 /\ place (mul pf (imag x) (real y)) = -9) /\
  width (real (Complex_mul pf x y)) = 15 /\ place (real (Complex_mul pf x y)) = -9 /\
  width (imag (Complex_mul pf x y)) = 15 /\ place (imag (Complex_mul pf x y)) = -9.
Proof.
  intros H1 H2 H3 H4 H5 H6 H7 H8.
  cbn [Complex_mul real imag add sub mul width place].
  rewrite H1, H2, H3, H4, H5, H6, H7, H8.
  repeat split; reflexivity.
Qed.

(** ** Rounding *)

(** The two branches of [round_common] are one arithmetic shift. *)
Lemma sra_floor (t d : Z) : 0 < d -> t < 0 -> - ((- (t + 1)) / d) - 1 = t / d.
Proof.
  intros Hd Ht.
  pose proof (Z.div_mod t d ltac:(lia)) as E.
  pose proof (Z.mod_pos_bound t d Hd) as B.
  assert (H : (- (t + 1)) / d = - (t / d) - 1).
  { symmetry. apply (Z.div_unique_pos _ _ _ (d - t mod d - 1)); lia. }
  lia.
Qed.

(** Testing one bit with a mask. *)
Lemma land_pow2_eqb (a n : Z) :
  0 <= n -> (Z.land a (2 ^ n) =? 0) = Z.even (a / 2 ^ n).
Proof.
  intros Hn.
  rewrite <- Z.shiftr_div_pow2 by assumption.
  rewrite <- Z.negb_odd, <- Z.testbit_odd.
  destruct (Z.testbit a n) eqn:E; cbn [negb].
  - apply Z.eqb_neq. intros H0.
    assert (Hb : Z.testbit (Z.land a (2 ^ n)) n = true)
      by (rewrite Z.land_spec, E, Z.pow2_bits_true by assumption; reflexivity).
    rewrite H0, Z.bits_0 in Hb. discriminate.
  - apply Z.eqb_eq. apply Z.bits_inj'. intros k Hk.
    rewrite Z.land_spec, Z.bits_0, Z.pow2_bits_eqb by assumption.
    destruct (Z.eqb_spec n k); [subst k; rewrite E|rewrite andb_false_r]; reflexivity.
Qed.

Lemma round_result_place_coarser (P LSB : Z) :
  P < LSB -> round_result_place P LSB = LSB.
Proof. intros H. unfold round_result_place. rewrite std_max_spec. lia. Qed.

Lemma round_result_width_coarser (W P EXTRA LSB : Z) :
  P < LSB ->
  round_result_width W P EXTRA LSB
  = if W + P <=? 1 + LSB then Z.max 2 (1 + EXTRA) else W + P + EXTRA - LSB.
Proof.
  intros H. unfold round_result_width. rewrite std_max_spec.
  destruct (Z.geb_spec P LSB); [lia | reflexivity].
Qed.

Lemma round_sig_width_coarser (W P EXTRA LSB : Z) :
  P < LSB ->
  round_sig_width W P EXTRA LSB
  = (if W + P <=? 1 + LSB then Z.max 2 (1 + EXTRA) else W + P + EXTRA - LSB)
    + (LSB - P).
Proof.
  intros H. unfold round_sig_width.
  rewrite round_result_width_coarser, std_max_spec by assumption. lia.
Qed.

Section Rounding.
Variable x : FixedPoint.
Variable LSB_PLACE : Z.
Hypothesis Hw : 2 <= width x <= 54.
Hypothesis Hl : legal x.
Hypothesis Hp : place x < LSB_PLACE.

Let W := width x.
Let P := place x.
Let s := significand x.
Let shift := LSB_PLACE - place x.

(** The room that the intermediate type and the result type have. *)
Lemma round_room (EXTRA : Z) :
  0 <= EXTRA <= 1 ->
  round_sig_width W P EXTRA LSB_PLACE <= 64 ->
  let Ns := round_sig_bits pf W P EXTRA LSB_PLACE in
  W <= Ns /\ shift + 2 <= Ns /\
  (EXTRA = 1 -> 2 ^ (W - 1) + 2 ^ shift <= 2 ^ (Ns - 1)).
Proof.
  intros HE Hd Ns.
  pose proof (significand_bits_fits _ Hd) as Hfit. fold (round_sig_bits pf W P EXTRA LSB_PLACE) in Hfit.
  fold Ns in Hfit.
  rewrite round_sig_width_coarser in Hfit by (unfold P; lia).
  fold shift in Hfit. unfold W, P in *.
  destruct (Z.leb_spec (width x + place x) (1 + LSB_PLACE)) as [Hc|Hc].
  - (* all the bits but the sign lie below the new place *)
    assert (Hs : width x - 1 <= shift) by (unfold shift; lia).
    repeat split; try lia.
    intros _.
    assert (2 ^ (width x - 1) <= 2 ^ shift) by (apply pow2_le; lia).
    assert (2 ^ (shift + 1) <= 2 ^ (Ns - 1)) by (apply pow2_le; unfold shift in *; lia).
    rewrite (pow2_split (shift + 1)) in * by (unfold shift; lia).
    replace (shift + 1 - 1) with shift in * by lia. lia.
  - assert (Hs : shift <= width x - 2) by (unfold shift; lia).
    repeat split; try (unfold shift in *; lia).
    intros ->.
    assert (2 ^ shift <= 2 ^ (width x - 1)) by (apply pow2_le; unfold shift in *; lia).
    assert (2 ^ (width x) <= 2 ^ (Ns - 1)) by (apply pow2_le; unfold shift in *; lia).
    rewrite (pow2_split (width x)) in * by lia. lia.
Qed.

(** What [round_common] comes to when the function it is given returns
    [t]: the quotient of [t] by 2^shift, rounded down. *)
Lemma round_common_floor (EXTRA : Z) (func : Z -> Z) :
  0 <= EXTRA <= 1 ->
  round_sig_width W P EXTRA LSB_PLACE <= 64 ->
  let Ns := round_sig_bits pf W P EXTRA LSB_PLACE in
  let Wr := round_result_width W P EXTRA LSB_PLACE in
  let t := func s in
  - 2 ^ (Ns - 1) <= t < 2 ^ (Ns - 1) ->
  legal_significand Wr (t / 2 ^ shift) ->
  round_common pf EXTRA LSB_PLACE func x = mkFixedPoint Wr LSB_PLACE (t / 2 ^ shift).
Proof.
  intros HE Hd Ns Wr t Ht Hr.
  destruct (round_room EXTRA HE Hd) as (HNW & HNs & _). fold Ns in HNW, HNs.
  assert (Hsh : 1 <= shift) by (unfold shift; lia).
  pose proof (pow2_pos shift ltac:(lia)) as Hpd.
  assert (HWr : 2 <= Wr <= 64).
  { unfold Wr. rewrite round_result_width_coarser by (unfold P; lia).
    unfold W, P. destruct (Z.leb_spec (width x + place x) (1 + LSB_PLACE)); lia. }
  pose proof (significand_bits_fits Wr ltac:(lia)) as HNr.
  unfold round_common.
  fold W P s Wr. rewrite round_result_place_coarser by (unfold P; lia).
  destruct (Z.eqb_spec P LSB_PLACE) as [E|_]; [unfold P in E; lia|].
  fold Ns t. replace (LSB_PLACE - P) with shift by reflexivity.
  unfold sshr. rewrite (Z.mod_small shift Ns) by lia.
  destruct (Z.geb_spec t 0) as [Hpos|Hneg]; f_equal.
  - rewrite Z.shiftr_div_pow2 by lia.
    apply (sint_legal Wr); [lia | exact Hr].
  - unfold ssub, sneg, sadd.
    assert (H1 : 2 ^ (Ns - 1) = 2 * 2 ^ (Ns - 2)).
    { rewrite (pow2_split (Ns - 1)) by lia. f_equal. f_equal. lia. }
    rewrite (sint_id Ns (t + 1)) by lia.
    rewrite (sint_id Ns (- (t + 1))) by lia.
    rewrite Z.shiftr_div_pow2 by lia.
    assert (Hq : 0 <= (- (t + 1)) / 2 ^ shift <= - (t + 1)).
    { split; [apply Z.div_pos; lia|].
      apply Z.div_le_upper_bound; [lia|]. nia. }
    rewrite (sint_id Ns (- (_ / _))) by lia.
    rewrite (sint_id Ns (- (_ / _) - 1)) by lia.
    rewrite sra_floor by lia.
    apply (sint_legal Wr); [lia | exact Hr].
Qed.



Lemma sadd_common_exact (Ns N2 a b : Z) :
  0 < Ns -> - 2 ^ (Ns - 1) <= a + b < 2 ^ (Ns - 1) ->
  sint Ns (sadd (common_bits Ns N2) a b) = a + b.
Proof.
  intros HN Hr. unfold sadd, common_bits.
  assert (2 ^ (Ns - 1) <= 2 ^ (Z.max Ns N2 - 1)) by (apply pow2_le; lia).
  rewrite (sint_id (Z.max Ns N2)) by lia.
  apply sint_id; lia.
Qed.

Lemma ssub_common_exact (Ns N2 a b : Z) :
  0 < Ns -> - 2 ^ (Ns - 1) <= a - b < 2 ^ (Ns - 1) ->
  sint Ns (ssub (common_bits Ns N2) a b) = a - b.
Proof.
  intros HN Hr. unfold ssub, common_bits.
  assert (2 ^ (Ns - 1) <= 2 ^ (Z.max Ns N2 - 1)) by (apply pow2_le; lia).
  rewrite (sint_id (Z.max Ns N2)) by lia.
  apply sint_id; lia.
Qed.

Lemma shift_bounds : 1 <= shift /\ 2 <= 2 ^ shift /\ 2 ^ shift = 2 * 2 ^ (shift - 1)
  /\ 0 < 2 ^ (shift - 1) /\ 0 < 2 ^ (W - 1).
Proof.
  assert (Hsh : 1 <= shift) by (unfold shift; lia).
  pose proof (pow2_split shift ltac:(lia)).
  pose proof (pow2_pos (shift - 1) ltac:(lia)).
  pose proof (pow2_pos (W - 1) ltac:(unfold W; lia)).
  lia.
Qed.

(** With the extra bit, a result type takes the quotient of any
    significand to which less than 2^shift has been added. *)
Lemma biased_legal (b : Z) :
  0 <= b < 2 ^ shift ->
  legal_significand (round_result_width W P 1 LSB_PLACE) ((s + b) / 2 ^ shift).
Proof.
  intros Hb. destruct shift_bounds as (Hsh & Hd2 & Hd & Hh & HW).
  destruct Hl as [Hlo Hhi]. fold W s in Hlo, Hhi.
  rewrite round_result_width_coarser by (unfold P; lia).
  unfold legal_significand, W, P.
  destruct (Z.leb_spec (width x + place x) (1 + LSB_PLACE)) as [Hc|Hc].
  - (* the result is -1, 0 or 1 *)
    change (Z.max 2 (1 + 1) - 1) with 1. change (2 ^ 1) with 2.
    assert (2 ^ (W - 1) <= 2 ^ shift) by (apply pow2_le; unfold W, shift; lia).
    split.
    + apply Z.div_le_lower_bound; lia.
    + apply Z.lt_succ_r. apply Z.div_lt_upper_bound; lia.
  - replace (width x + place x + 1 - LSB_PLACE - 1) with (W - 1 - shift + 1)
      by (unfold W, shift; lia).
    assert (HX : 2 ^ (W - 1) = 2 ^ (W - 1 - shift) * 2 ^ shift).
    { rewrite <- pow2_add by (unfold W, shift; lia). f_equal. lia. }
    pose proof (pow2_pos (W - 1 - shift) ltac:(unfold W, shift; lia)) as HXp.
    rewrite (pow2_split (W - 1 - shift + 1)) by (unfold W, shift; lia).
    replace (W - 1 - shift + 1 - 1) with (W - 1 - shift) by lia.
    split.
    + apply Z.div_le_lower_bound; nia.
    + apply Z.lt_succ_r. apply Z.div_lt_upper_bound; nia.
Qed.

Lemma biased_in_bits (b : Z) :
  round_sig_width W P 1 LSB_PLACE <= 64 ->
  0 <= b < 2 ^ shift ->
  let Ns := round_sig_bits pf W P 1 LSB_PLACE in
  - 2 ^ (Ns - 1) <= s + b < 2 ^ (Ns - 1).
Proof.
  intros Hd Hb Ns.
  destruct (round_room 1 ltac:(lia) Hd) as (_ & _ & Hroom).
  specialize (Hroom eq_refl). fold Ns in Hroom.
  destruct Hl as [Hlo Hhi]. fold W s in Hlo, Hhi.
  destruct shift_bounds as (Hsh & Hd2 & Hdd & Hh & HW). lia.
Qed.

(** Without it, the quotient rounded toward zero. *)
Lemma truncated_legal :
  legal_significand (round_result_width W P 0 LSB_PLACE)
    ((s + (if s >=? 0 then 0 else 2 ^ shift - 1)) / 2 ^ shift).
Proof.
  destruct shift_bounds as (Hsh & Hd2 & Hd & Hh & HW).
  destruct Hl as [Hlo Hhi]. fold W s in Hlo, Hhi.
  rewrite round_result_width_coarser by (unfold P; lia).
  unfold legal_significand, W, P.
  destruct (Z.leb_spec (width x + place x) (1 + LSB_PLACE)) as [Hc|Hc].
  - change (Z.max 2 (1 + 0) - 1) with 1. change (2 ^ 1) with 2.
    assert (2 ^ (W - 1) <= 2 ^ shift) by (apply pow2_le; unfold W, shift; lia).
    destruct (Z.geb_spec s 0); split;
      try (apply Z.div_le_lower_bound; lia);
      apply Z.lt_succ_r; apply Z.div_lt_upper_bound; lia.
  - replace (width x + place x + 0 - LSB_PLACE - 1) with (W - 1 - shift)
      by (unfold W, shift; lia).
    assert (HX : 2 ^ (W - 1) = 2 ^ (W - 1 - shift) * 2 ^ shift).
    { rewrite <- pow2_add by (unfold W, shift; lia). f_equal. lia. }
    pose proof (pow2_pos (W - 1 - shift) ltac:(unfold W, shift; lia)) as HXp.
    destruct (Z.geb_spec s 0); split;
      try (apply Z.div_le_lower_bound; nia);
      apply Z.lt_succ_r; apply Z.div_lt_upper_bound; nia.
Qed.

(** The values of the constants of the roundings. *)
Lemma FRAC_MASK_eq :
  shift + 2 <= 64 -> MAX_SIGNIFICAND_VALUE pf (1 + LSB_PLACE - P) = 2 ^ shift - 1.
Proof.
  intros H. destruct shift_bounds as (Hsh & _).
  rewrite MAX_SIGNIFICAND_VALUE_eq by (unfold shift, P in *; lia).
  f_equal. f_equal. unfold shift, P. lia.
Qed.

Lemma HALF_MINUS_1_eq :
  shift + 2 <= 64 -> MAX_SIGNIFICAND_VALUE pf (LSB_PLACE - P) = 2 ^ (shift - 1) - 1.
Proof.
  intros H. destruct shift_bounds as (Hsh & _).
  rewrite MAX_SIGNIFICAND_VALUE_eq by (unfold shift, P in *; lia).
  reflexivity.
Qed.

Lemma HALF_eq :
  shift < significand_bits pf W ->
  let Nw := significand_bits pf W in
  sint Nw (Z.shiftl (sint Nw 1) (LSB_PLACE - P - 1)) = 2 ^ (shift - 1).
Proof.
  intros H Nw. destruct shift_bounds as (Hsh & _). fold Nw in H.
  assert (H1 : 1 < 2 ^ (Nw - 1))
    by (change 1 with (2 ^ 0) at 1; apply pow2_lt; lia).
  rewrite (sint_id Nw 1) by lia.
  rewrite Z.shiftl_1_l.
  replace (LSB_PLACE - P - 1) with (shift - 1) by (unfold shift, P; lia).
  pose proof (pow2_pos (shift - 1) ltac:(lia)).
  assert (2 ^ (shift - 1) < 2 ^ (Nw - 1)) by (apply pow2_lt; lia).
  apply sint_id; lia.
Qed.

Lemma round_sig_shift (EXTRA : Z) :
  0 <= EXTRA <= 1 -> round_sig_width W P EXTRA LSB_PLACE <= 64 -> shift + 2 <= 64.
Proof.
  intros HE Hd. rewrite round_sig_width_coarser in Hd by (unfold P; lia).
  fold shift in Hd. unfold W, P in Hd.
  destruct (Z.leb_spec (width x + place x) (1 + LSB_PLACE)); unfold shift in *; lia.
Qed.

(** What each of the functions handed to [round_common] returns. *)
Lemma not_finer : (P >=? LSB_PLACE) = false.
Proof. destruct (Z.geb_spec P LSB_PLACE); [unfold P in *; lia | reflexivity]. Qed.

Lemma round_sig_arg (EXTRA : Z) :
  0 <= EXTRA <= 1 -> round_sig_width W P EXTRA LSB_PLACE <= 64 ->
  sint (round_sig_bits pf W P EXTRA LSB_PLACE) s = s.
Proof.
  intros HE Hd. destruct (round_room EXTRA HE Hd) as (HNW & _).
  apply (sint_legal W); [unfold W in *; lia | exact Hl].
Qed.

Lemma round_sig_bits_pos (EXTRA : Z) :
  0 <= EXTRA <= 1 -> round_sig_width W P EXTRA LSB_PLACE <= 64 ->
  0 < round_sig_bits pf W P EXTRA LSB_PLACE.
Proof.
  intros HE Hd. destruct (round_room EXTRA HE Hd) as (HNW & _).
  unfold W in *; lia.
Qed.

Lemma ceil_func_eq :
  round_sig_width W P 1 LSB_PLACE <= 64 ->
  ceil_func pf W P LSB_PLACE s = s + (2 ^ shift - 1).
Proof.
  intros Hd. unfold ceil_func.
  rewrite round_sig_arg, not_finer by (auto; lia).
  rewrite FRAC_MASK_eq by (apply (round_sig_shift 1); auto; lia).
  destruct shift_bounds as (Hsh & Hd2 & _).
  apply sadd_common_exact; [apply round_sig_bits_pos; auto; lia|].
  apply biased_in_bits; auto; lia.
Qed.

Lemma floor_func_eq :
  round_sig_width W P 1 LSB_PLACE <= 64 ->
  floor_func pf W P LSB_PLACE s = s + 0.
Proof.
  intros Hd. unfold floor_func.
  rewrite round_sig_arg by (auto; lia). lia.
Qed.

Lemma trunc_func_eq :
  round_sig_width W P 0 LSB_PLACE <= 64 ->
  trunc_func pf W P LSB_PLACE s = s + (if s >=? 0 then 0 else 2 ^ shift - 1).
Proof.
  intros Hd. unfold trunc_func.
  rewrite round_sig_arg, not_finer by (auto; lia).
  destruct (Z.geb_spec s 0) as [Hs|Hs]; [lia|].
  rewrite FRAC_MASK_eq by (apply (round_sig_shift 0); auto; lia).
  destruct shift_bounds as (Hsh & Hd2 & _).
  destruct (round_room 0 ltac:(lia) Hd) as (HNW & HNs & _).
  set (Ns := round_sig_bits pf W P 0 LSB_PLACE) in *.
  destruct Hl as [Hlo Hhi]. fold W s in Hlo, Hhi.
  assert (2 ^ (W - 1) <= 2 ^ (Ns - 1)) by (apply pow2_le; unfold W in *; lia).
  assert (2 ^ shift <= 2 ^ (Ns - 1)) by (apply pow2_le; lia).
  apply sadd_common_exact; [unfold W in *; lia | lia].
Qed.

Lemma round_half_to_even_func_eq :
  round_sig_width W P 1 LSB_PLACE <= 64 ->
  round_half_to_even_func pf W P LSB_PLACE s
  = s + (2 ^ (shift - 1) - 1 + (if Z.even (s / 2 ^ shift) then 0 else 1)).
Proof.
  intros Hd. unfold round_half_to_even_func.
  rewrite round_sig_arg, not_finer by (auto; lia).
  rewrite HALF_MINUS_1_eq by (apply (round_sig_shift 1); auto; lia).
  destruct shift_bounds as (Hsh & Hd2 & Hdd & Hh & _).
  destruct (round_room 1 ltac:(lia) Hd) as (HNW & HNs & _).
  pose proof (round_sig_bits_pos 1 ltac:(lia) Hd) as HNp.
  set (Ns := round_sig_bits pf W P 1 LSB_PLACE) in *.
  assert (H1 : 1 < 2 ^ (Ns - 1))
    by (change 1 with (2 ^ 0) at 1; apply pow2_lt; lia).
  rewrite (sint_id Ns 1) by lia.
  unfold sshl. fold P. replace (LSB_PLACE - P) with shift by reflexivity.
  rewrite (Z.mod_small shift Ns) by lia.
  rewrite Z.shiftl_1_l.
  assert (2 ^ shift < 2 ^ (Ns - 1)) by (apply pow2_lt; lia).
  rewrite (sint_id Ns (2 ^ shift)) by lia.
  rewrite land_pow2_eqb by lia.
  set (lsb := if Z.even (s / 2 ^ shift) then 0 else 1).
  assert (Hlsb : 0 <= lsb <= 1) by (unfold lsb; destruct (Z.even _); lia).
  pose proof (biased_in_bits (2 ^ (shift - 1) - 1 + lsb) Hd ltac:(lia)) as Hb.
  pose proof (biased_in_bits (2 ^ (shift - 1) - 1) Hd ltac:(lia)) as Hb0.
  cbv zeta in Hb, Hb0. fold Ns in Hb, Hb0.
  set (Nc := common_bits Ns (significand_bits pf shift)).
  assert (HNc : 2 ^ (Ns - 1) <= 2 ^ (Nc - 1))
    by (apply pow2_le; unfold Nc, common_bits; lia).
  assert (HNcp : 0 < Nc) by (unfold Nc, common_bits; lia).
  unfold sadd at 2.
  rewrite (sint_id Nc (s + (2 ^ (shift - 1) - 1))) by lia.
  unfold Nc. rewrite sadd_common_exact by lia. lia.
Qed.

Lemma round_half_away_from_zero_func_eq :
  round_sig_width W P 1 LSB_PLACE <= 64 ->
  shift < significand_bits pf W ->
  round_half_away_from_zero_func pf W P LSB_PLACE s
  = s + (2 ^ (shift - 1) - (if s <? 0 then 1 else 0)).
Proof.
  intros Hd Hh. unfold round_half_away_from_zero_func.
  rewrite round_sig_arg, not_finer by (auto; lia).
  rewrite HALF_eq by assumption.
  destruct shift_bounds as (Hsh & Hd2 & Hdd & Hhp & _).
  pose proof (round_sig_bits_pos 1 ltac:(lia) Hd) as HNp.
  set (sign_bit := if s <? 0 then 1 else 0).
  assert (Hsb : 0 <= sign_bit <= 1) by (unfold sign_bit; destruct (s <? 0); lia).
  pose proof (biased_in_bits (2 ^ (shift - 1) - sign_bit) Hd ltac:(lia)) as Hb.
  pose proof (biased_in_bits (2 ^ (shift - 1)) Hd ltac:(lia)) as Hb0.
  cbv zeta in Hb, Hb0.
  set (Ns := round_sig_bits pf W P 1 LSB_PLACE) in *.
  set (Nc := common_bits Ns (significand_bits pf W)).
  assert (HNc : 2 ^ (Ns - 1) <= 2 ^ (Nc - 1))
    by (apply pow2_le; unfold Nc, common_bits; lia).
  assert (HNcp : 0 < Nc) by (unfold Nc, common_bits; lia).
  unfold sadd.
  rewrite (sint_id Nc (s + 2 ^ (shift - 1))) by lia.
  unfold Nc. rewrite ssub_common_exact by lia. lia.
Qed.

Lemma round_half_toward_zero_func_eq :
  round_sig_width W P 1 LSB_PLACE <= 64 ->
  shift < significand_bits pf W ->
  round_half_toward_zero_func pf W P LSB_PLACE s
  = s + (2 ^ (shift - 1) - (if s <? 0 then 0 else 1)).
Proof.
  intros Hd Hh. unfold round_half_toward_zero_func.
  rewrite round_sig_arg, not_finer by (auto; lia).
  rewrite HALF_eq by assumption.
  destruct shift_bounds as (Hsh & Hd2 & Hdd & Hhp & _).
  pose proof (round_sig_bits_pos 1 ltac:(lia) Hd) as HNp.
  replace (Z.lxor (if s <? 0 then 1 else 0) 1) with (if s <? 0 then 0 else 1)
    by (destruct (s <? 0); reflexivity).
  set (b := if s <? 0 then 0 else 1).
  assert (Hsb : 0 <= b <= 1) by (unfold b; destruct (s <? 0); lia).
  pose proof (biased_in_bits (2 ^ (shift - 1) - b) Hd ltac:(lia)) as Hb.
  pose proof (biased_in_bits (2 ^ (shift - 1)) Hd ltac:(lia)) as Hb0.
  cbv zeta in Hb, Hb0.
  set (Ns := round_sig_bits pf W P 1 LSB_PLACE) in *.
  set (Nc := common_bits Ns (significand_bits pf W)).
  assert (HNc : 2 ^ (Ns - 1) <= 2 ^ (Nc - 1))
    by (apply pow2_le; unfold Nc, common_bits; lia).
  assert (HNcp : 0 < Nc) by (unfold Nc, common_bits; lia).
  unfold sadd.
  rewrite (sint_id Nc (s + 2 ^ (shift - 1))) by lia.
  unfold Nc. rewrite ssub_common_exact by lia. lia.
Qed.

Lemma round_half_up_func_eq :
  round_sig_width W P 1 LSB_PLACE <= 64 ->
  shift < significand_bits pf W ->
  round_half_up_func pf W P LSB_PLACE s = s + 2 ^ (shift - 1).
Proof.
  intros Hd Hh. unfold round_half_up_func.
  rewrite round_sig_arg, not_finer by (auto; lia).
  rewrite HALF_eq by assumption.
  destruct shift_bounds as (Hsh & Hd2 & Hdd & Hhp & _).
  apply sadd_common_exact; [apply round_sig_bits_pos; auto; lia|].
  apply biased_in_bits; auto; lia.
Qed.

Lemma round_half_down_func_eq :
  round_sig_width W P 1 LSB_PLACE <= 64 ->
  round_half_down_func pf W P LSB_PLACE s = s + (2 ^ (shift - 1) - 1).
Proof.
  intros Hd. unfold round_half_down_func.
  rewrite round_sig_arg, not_finer by (auto; lia).
  rewrite HALF_MINUS_1_eq by (apply (round_sig_shift 1); auto; lia).
  destruct shift_bounds as (Hsh & Hd2 & Hdd & Hhp & _).
  apply sadd_common_exact; [apply round_sig_bits_pos; auto; lia|].
  apply biased_in_bits; auto; lia.
Qed.

(** A rounding with the extra bit whose function adds [b] to the
    significand. *)
Lemma round_common_biased (func : Z -> Z) (b : Z) :
  round_sig_width W P 1 LSB_PLACE <= 64 ->
  func s = s + b -> 0 <= b < 2 ^ shift ->
  round_common pf 1 LSB_PLACE func x
  = mkFixedPoint (round_result_width W P 1 LSB_PLACE) LSB_PLACE ((s + b) / 2 ^ shift).
Proof.
  intros Hd Hf Hb.
  rewrite (round_common_floor 1 func ltac:(lia) Hd);
    fold s; rewrite Hf.
  - reflexivity.
  - apply biased_in_bits; assumption.
  - apply biased_legal; assumption.
Qed.

End Rounding.

(** The eight roundings to a coarser place: the significand plus a bias,
    shifted down. *)
Section RoundingEquations.
Variable x : FixedPoint.
Variable LSB_PLACE : Z.
Hypothesis Hw : 2 <= width x <= 54.
Hypothesis Hl : legal x.
Hypothesis Hp : place x < LSB_PLACE.

Let s := significand x.
Let shift := LSB_PLACE - place x.
Let Wr (EXTRA : Z) := round_result_width (width x) (place x) EXTRA LSB_PLACE.

Lemma ceil_coarser :
  round_sig_width (width x) (place x) 1 LSB_PLACE <= 64 ->
  ceil pf LSB_PLACE x
  = mkFixedPoint (Wr 1) LSB_PLACE ((s + (2 ^ shift - 1)) / 2 ^ shift).
Proof.
  intros Hd. destruct (shift_bounds x LSB_PLACE Hw Hp) as (? & ? & _).
  apply round_common_biased; auto; [|unfold shift; lia].
  apply ceil_func_eq; auto.
Qed.

Lemma floor_coarser :
  round_sig_width (width x) (place x) 1 LSB_PLACE <= 64 ->
  floor pf LSB_PLACE x = mkFixedPoint (Wr 1) LSB_PLACE ((s + 0) / 2 ^ shift).
Proof.
  intros Hd. destruct (shift_bounds x LSB_PLACE Hw Hp) as (? & ? & _).
  apply round_common_biased; auto; [|unfold shift; lia].
  apply floor_func_eq; auto.
Qed.

Lemma trunc_coarser :
  round_sig_width (width x) (place x) 0 LSB_PLACE <= 64 ->
  trunc pf LSB_PLACE x
  = mkFixedPoint (Wr 0) LSB_PLACE
      ((s + (if s >=? 0 then 0 else 2 ^ shift - 1)) / 2 ^ shift).
Proof.
  intros Hd. destruct (shift_bounds x LSB_PLACE Hw Hp) as (Hsh & Hd2 & _).
  fold shift in Hsh, Hd2.
  pose proof (trunc_func_eq x LSB_PLACE Hw Hl Hp Hd) as Hf.
  unfold trunc.
  rewrite (round_common_floor x LSB_PLACE Hw Hp 0 _ ltac:(lia) Hd);
    fold s shift; fold s shift in Hf; rewrite Hf.
  - reflexivity.
  - destruct (round_room x LSB_PLACE Hw Hp 0 ltac:(lia) Hd) as (HNW & HNs & _).
    fold shift in HNs.
    set (Ns := round_sig_bits pf (width x) (place x) 0 LSB_PLACE) in *.
    destruct Hl as [Hlo Hhi]. fold s in Hlo, Hhi.
    assert (2 ^ (width x - 1) <= 2 ^ (Ns - 1)) by (apply pow2_le; lia).
    assert (2 ^ shift <= 2 ^ (Ns - 1)) by (apply pow2_le; lia).
    pose proof (pow2_pos (width x - 1) ltac:(lia)).
    destruct (Z.geb_spec s 0); lia.
  - apply truncated_legal; auto.
Qed.

Lemma round_half_to_even_coarser :
  round_sig_width (width x) (place x) 1 LSB_PLACE <= 64 ->
  round_half_to_even pf LSB_PLACE x
  = mkFixedPoint (Wr 1) LSB_PLACE
      ((s + (2 ^ (shift - 1) - 1 + (if Z.even (s / 2 ^ shift) then 0 else 1)))
       / 2 ^ shift).
Proof.
  intros Hd. destruct (shift_bounds x LSB_PLACE Hw Hp) as (? & ? & ? & ? & _).
  apply round_common_biased; auto; [|unfold shift; destruct (Z.even _); lia].
  apply round_half_to_even_func_eq; auto.
Qed.

Lemma round_half_away_from_zero_coarser :
  round_sig_width (width x) (place x) 1 LSB_PLACE <= 64 ->
  shift < significand_bits pf (width x) ->
  round_half_away_from_zero pf LSB_PLACE x
  = mkFixedPoint (Wr 1) LSB_PLACE
      ((s + (2 ^ (shift - 1) - (if s <? 0 then 1 else 0))) / 2 ^ shift).
Proof.
  intros Hd Hh. destruct (shift_bounds x LSB_PLACE Hw Hp) as (? & ? & ? & ? & _).
  apply round_common_biased; auto; [|unfold shift; destruct (s <? 0); lia].
  apply round_half_away_from_zero_func_eq; auto.
Qed.

Lemma round_half_toward_zero_coarser :
  round_sig_width (width x) (place x) 1 LSB_PLACE <= 64 ->
  shift < significand_bits pf (width x) ->
  round_half_toward_zero pf LSB_PLACE x
  = mkFixedPoint (Wr 1) LSB_PLACE
      ((s + (2 ^ (shift - 1) - (if s <? 0 then 0 else 1))) / 2 ^ shift).
Proof.
  intros Hd Hh. destruct (shift_bounds x LSB_PLACE Hw Hp) as (? & ? & ? & ? & _).
  apply round_common_biased; auto; [|unfold shift; destruct (s <? 0); lia].
  apply round_half_toward_zero_func_eq; auto.
Qed.

Lemma round_half_up_coarser :
  round_sig_width (width x) (place x) 1 LSB_PLACE <= 64 ->
  shift < significand_bits pf (width x) ->
  round_half_up pf LSB_PLACE x
  = mkFixedPoint (Wr 1) LSB_PLACE ((s + 2 ^ (shift - 1)) / 2 ^ shift).
Proof.
  intros Hd Hh. destruct (shift_bounds x LSB_PLACE Hw Hp) as (? & ? & ? & ? & _).
  apply round_common_biased; auto; [|unfold shift; lia].
  apply round_half_up_func_eq; auto.
Qed.

Lemma round_half_down_coarser :
  round_sig_width (width x) (place x) 1 LSB_PLACE <= 64 ->
  round_half_down pf LSB_PLACE x
  = mkFixedPoint (Wr 1) LSB_PLACE ((s + (2 ^ (shift - 1) - 1)) / 2 ^ shift).
Proof.
  intros Hd. destruct (shift_bounds x LSB_PLACE Hw Hp) as (? & ? & ? & ? & _).
  apply round_common_biased; auto; [|unfold shift; lia].
  apply round_half_down_func_eq; auto.
Qed.

End RoundingEquations.

(** A rounding whose place is not coarser than the place of the value
    copies the value. *)
Lemma round_common_not_coarser (EXTRA LSB_PLACE : Z) (func : Z -> Z) (x : FixedPoint) :
  2 <= width x <= 64 -> legal x -> LSB_PLACE <= place x ->
  round_common pf EXTRA LSB_PLACE func x = x.
Proof.
  intros Hw Hl Hp. unfold round_common, round_result_place, round_result_width.
  rewrite std_max_spec.
  replace (Z.max (place x) LSB_PLACE) with (place x) by lia.
  rewrite Z.eqb_refl.
  destruct (Z.geb_spec (place x) LSB_PLACE); [|lia].
  rewrite (sint_legal (width x)); [destruct x; reflexivity | | exact Hl].
  pose proof (significand_bits_fits (width x)). lia.
Qed.

(** ** Rounding to a place that is not coarser *)

(** C6, as amended.  The claim speaks of a target place that is not finer
    than the source place; the roundings copy their argument when the
    target place is not coarser than the source place
    (LSB_PLACE <= PLACE): each of the eight functions then returns the
    value itself, at its own width and place, and so with its own real
    value.  The example below shows that a coarser target discards. *)
Theorem rounding_not_coarser_copies (x : FixedPoint) (LSB_PLACE : Z) :
  well_typed x -> legal x -> LSB_PLACE <= place x ->
  Forall (fun r => r = x /\ (real_value r == real_value x)%Q)
         (roundings pf LSB_PLACE x).
Proof.
  intros Tx Lx Hp. apply static_assert_FixedPoint_spec in Tx.
  assert (E : forall EXTRA func, round_common pf EXTRA LSB_PLACE func x = x)
    by (intros; apply round_common_not_coarser; auto; lia).
  unfold roundings, ceil, floor, trunc, round_half_to_even,
    round_half_away_from_zero, round_half_toward_zero, round_half_up,
    round_half_down.
  rewrite !E.
  repeat constructor; reflexivity.
Qed.

(** ** Rounding a value that lies halfway *)

Lemma midpoint_shift (W s shift : Z) :
  2 <= W -> 1 <= shift -> legal_significand W s ->
  2 * (s mod 2 ^ shift) = 2 ^ shift -> shift <= W - 1.
Proof.
  intros HW Hsh [Hlo Hhi] Hmid.
  destruct (Z_le_gt_dec shift (W - 1)) as [|Hgt]; [assumption|exfalso].
  assert (Hd : 2 ^ shift = 2 * 2 ^ (shift - 1)) by (apply pow2_split; lia).
  assert (2 ^ (W - 1) <= 2 ^ (shift - 1)) by (apply pow2_le; lia).
  pose proof (pow2_pos (W - 1) ltac:(lia)).
  pose proof (Z.div_mod s (2 ^ shift) ltac:(lia)) as E.
  set (q := s / 2 ^ shift) in *. set (h := 2 ^ (shift - 1)) in *.
  assert (Hr : s mod 2 ^ shift = h) by lia.
  rewrite Hr, Hd in E.
  assert (- 1 < q < 0) by nia. lia.
Qed.

Lemma midpoint_quotients (s h q : Z) :
  0 < h -> s = 2 * h * q + h ->
  (s + h) / (2 * h) = q + 1 /\ (s + (h - 1)) / (2 * h) = q.
Proof.
  intros Hh E. split; symmetry.
  - apply (Z.div_unique_pos _ _ _ 0); lia.
  - apply (Z.div_unique_pos _ _ _ (2 * h - 1)); lia.
Qed.

(** C5. A value that lies exactly halfway between two consecutive
    multiples of 2^LSB_PLACE, the lower one being q * 2^LSB_PLACE, is
    rounded to the neighbour that the policy of the function names:
    [round_half_to_even] returns the one whose significand is even,
    [round_half_away_from_zero] the one away from zero,
    [round_half_toward_zero] the one toward zero, [round_half_up] the
    upper one and [round_half_down] the lower one. *)
Theorem rounding_midpoints (x : FixedPoint) (LSB_PLACE : Z) :
  well_typed x -> legal x -> place x < LSB_PLACE ->
  let d := 2 ^ (LSB_PLACE - place x) in
  let q := significand x / d in
  let Wr := round_result_width (width x) (place x) 1 LSB_PLACE in
  2 * (significand x mod d) = d ->
  round_half_to_even pf LSB_PLACE x
    = mkFixedPoint Wr LSB_PLACE (if Z.even q then q else q + 1) /\
  Z.even (significand (round_half_to_even pf LSB_PLACE x)) = true /\
  round_half_away_from_zero pf LSB_PLACE x
    = mkFixedPoint Wr LSB_PLACE (if significand x <? 0 then q else q + 1) /\
  round_half_toward_zero pf LSB_PLACE x
    = mkFixedPoint Wr LSB_PLACE (if significand x <? 0 then q + 1 else q) /\
  round_half_up pf LSB_PLACE x = mkFixedPoint Wr LSB_PLACE (q + 1) /\
  round_half_down pf LSB_PLACE x = mkFixedPoint Wr LSB_PLACE q.
Proof.
  intros Tx Lx Hp d q Wr Hmid. apply static_assert_FixedPoint_spec in Tx.
  set (shift := LSB_PLACE - place x) in *.
  assert (Hsh : 1 <= shift) by (unfold shift; lia).
  assert (Hsmall : shift <= width x - 1)
    by (apply (midpoint_shift (width x) (significand x)); auto; lia).
  assert (Hd : round_sig_width (width x) (place x) 1 LSB_PLACE <= 64).
  { rewrite round_sig_width_coarser by assumption. fold shift.
    destruct (Z.leb_spec (width x + place x) (1 + LSB_PLACE)); unfold shift in *; lia. }
  assert (Hh : shift < significand_bits pf (width x))
    by (pose proof (significand_bits_fits (width x)); lia).
  assert (Hw : 2 <= width x <= 54) by lia.
  rewrite round_half_to_even_coarser, round_half_away_from_zero_coarser,
    round_half_toward_zero_coarser, round_half_up_coarser,
    round_half_down_coarser by assumption.
  fold shift Wr. cbn [significand].
  assert (Hdd : d = 2 * 2 ^ (shift - 1)) by (apply pow2_split; lia).
  pose proof (pow2_pos (shift - 1) ltac:(lia)) as Hhp.
  set (h := 2 ^ (shift - 1)) in *.
  pose proof (Z.div_mod (significand x) d ltac:(lia)) as E. fold q in E.
  assert (Es : significand x = 2 * h * q + h) by lia.
  destruct (midpoint_quotients _ h q Hhp Es) as [Hup Hdown].
  fold d. fold q. clearbody q. clearbody d. subst d.
  assert (Eeven : (significand x
                   + (h - 1 + (if Z.even q then 0 else 1))) / (2 * h)
                  = if Z.even q then q else q + 1).
  { destruct (Z.even q).
    - rewrite <- Hdown; f_equal; lia.
    - rewrite <- Hup; f_equal; lia. }
  rewrite Eeven.
  split; [reflexivity|].
  split.
  { destruct (Z.even q) eqn:Eq; [exact Eq|].
    rewrite Z.even_add, Eq. reflexivity. }
  split.
  { f_equal. destruct (significand x <? 0).
    - rewrite <- Hdown; f_equal; lia.
    - rewrite <- Hup; f_equal; lia. }
  split.
  { f_equal. destruct (significand x <? 0).
    - rewrite <- Hup; f_equal; lia.
    - rewrite <- Hdown; f_equal; lia. }
  split; f_equal; assumption.
Qed.

(** ** The adders of fixed_numeric.h *)

Lemma sint_uint (N x : Z) : 0 < N -> sint N (uint N x) = sint N x.
Proof.
  intros HN. unfold sint, uint.
  rewrite Zplus_mod_idemp_l. reflexivity.
Qed.

Lemma uint_sint (N x : Z) : 0 < N -> uint N (sint N x) = uint N x.
Proof.
  intros HN. unfold sint, uint.
  pose proof (pow2_pos N ltac:(lia)).
  rewrite Zminus_mod_idemp_l.
  f_equal. lia.
Qed.

Lemma uint_range (N x : Z) : 0 <= N -> 0 <= uint N x < 2 ^ N.
Proof. intros HN. unfold uint. apply Z.mod_pos_bound. apply pow2_pos; lia. Qed.

Lemma uint_land_ones (N x : Z) : 0 <= N -> uint N x = Z.land x (Z.ones N).
Proof. intros HN. unfold uint. symmetry. apply Z.land_ones; assumption. Qed.

(** The complement of the low k bits, as an N-bit unsigned number. *)
Lemma uint_lnot_ones (N k : Z) :
  0 <= k <= N -> uint N (Z.lnot (Z.ones k)) = 2 ^ N - 2 ^ k.
Proof.
  intros Hk. unfold uint, Z.lnot. rewrite Z.ones_equiv.
  pose proof (pow2_pos k ltac:(lia)). pose proof (pow2_le k N ltac:(lia)).
  replace (Z.pred (- Z.pred (2 ^ k))) with (2 ^ N - 2 ^ k + (-1) * 2 ^ N) by lia.
  rewrite Z.mod_add by lia. apply Z.mod_small. lia.
Qed.

(** Setting all the bits from k upward gives the negative number that
    has the same low k bits. *)
Lemma lor_lnot_ones (u k : Z) :
  0 <= k -> Z.lor u (Z.lnot (Z.ones k)) = u mod 2 ^ k - 2 ^ k.
Proof.
  intros Hk.
  replace (Z.lor u (Z.lnot (Z.ones k)))
    with (Z.lnot (Z.land (Z.lnot u) (Z.ones k)))
    by (rewrite Z.lnot_land, Z.lnot_involutive; reflexivity).
  rewrite Z.land_ones by assumption.
  pose proof (pow2_pos k Hk) as Hp.
  pose proof (Z.div_mod u (2 ^ k) ltac:(lia)) as E.
  pose proof (Z.mod_pos_bound u (2 ^ k) Hp) as B.
  assert (Hm : Z.lnot u mod 2 ^ k = 2 ^ k - 1 - u mod 2 ^ k).
  { symmetry. apply (Z.mod_unique_pos _ _ (- (u / 2 ^ k) - 1)); [lia|].
    unfold Z.lnot. lia. }
  rewrite Hm. unfold Z.lnot. lia.
Qed.

(** Clearing the low k bits. *)
Lemma land_lnot_ones (u k : Z) :
  0 <= k -> Z.land u (Z.lnot (Z.ones k)) = u - u mod 2 ^ k.
Proof.
  intros Hk.
  rewrite <- Z.ldiff_land.
  rewrite Z.ldiff_ones_r by assumption.
  rewrite Z.shiftr_div_pow2, Z.shiftl_mul_pow2 by assumption.
  pose proof (pow2_pos k Hk) as Hp.
  pose proof (Z.div_mod u (2 ^ k) ltac:(lia)). lia.
Qed.

(** Operations with an N-bit mask on an N-bit unsigned number. *)
Lemma lor_uint_mask (N u m : Z) :
  0 <= N -> 0 <= u < 2 ^ N -> Z.lor u (uint N m) = uint N (Z.lor u m).
Proof.
  intros HN Hu. rewrite !uint_land_ones by assumption.
  rewrite Z.land_lor_distr_l.
  rewrite (Z.land_ones u) by assumption.
  rewrite Z.mod_small by assumption. reflexivity.
Qed.

Lemma land_uint_mask (N u m : Z) :
  0 <= N -> 0 <= u < 2 ^ N -> Z.land u (uint N m) = Z.land u m.
Proof.
  intros HN Hu. rewrite uint_land_ones by assumption.
  rewrite (Z.land_comm m), Z.land_assoc.
  rewrite (Z.land_ones u) by assumption.
  rewrite Z.mod_small by assumption. reflexivity.
Qed.

Section Adders.
Variable WIDTH1 : Z.
Variable accumulator : Z.
Variable increment : FixedPoint.
Hypothesis HW1 : 2 <= WIDTH1 <= 64.
Hypothesis HW2 : 2 <= width increment.
Hypothesis Hadder : static_assert_adder WIDTH1 (width increment) = true.

Let N1 := significand_bits pf WIDTH1.
Let k := WIDTH1 - 1.

Lemma adder_sum_bits_eq : adder_sum_bits pf WIDTH1 (width increment) = N1.
Proof.
  unfold adder_sum_bits, common_bits, static_assert_adder in *.
  apply Z.geb_le in Hadder.
  pose proof (significand_bits_mono _ _ Hadder). unfold N1. lia.
Qed.

Lemma adder_bits : WIDTH1 <= N1 /\ 32 <= N1 /\ 0 < 2 ^ k /\ 2 ^ k < 2 ^ N1
  /\ 2 ^ WIDTH1 = 2 * 2 ^ k /\ 2 ^ WIDTH1 <= 2 ^ N1.
Proof.
  pose proof (significand_bits_fits WIDTH1 ltac:(lia)).
  pose proof (significand_bits_ge32 WIDTH1).
  fold N1 in H, H0. unfold k.
  pose proof (pow2_pos (WIDTH1 - 1) ltac:(lia)).
  pose proof (pow2_lt (WIDTH1 - 1) N1 ltac:(lia)).
  pose proof (pow2_split WIDTH1 ltac:(lia)).
  pose proof (pow2_le WIDTH1 N1 ltac:(lia)).
  lia.
Qed.

Lemma UMASK_eq : uint N1 (MAX_SIGNIFICAND_VALUE pf WIDTH1) = Z.ones k.
Proof.
  destruct adder_bits as (H1 & H2 & H3 & H4 & _).
  rewrite MAX_SIGNIFICAND_VALUE_eq by lia. fold k.
  rewrite Z.ones_equiv. apply uint_id. lia.
Qed.

(** [int_adder] keeps the low WIDTH1 bits of the sum and extends their
    sign. *)
Lemma int_adder_sign_extends :
  int_adder pf WIDTH1 accumulator increment
  = sint WIDTH1 (accumulator + significand increment).
Proof.
  destruct adder_bits as (H1 & H2 & H3 & H4 & H5 & H6).
  unfold int_adder, get_significand. rewrite adder_sum_bits_eq. fold N1.
  rewrite UMASK_eq. unfold sadd.
  rewrite uint_sint by lia.
  set (t := accumulator + significand increment).
  set (u := uint N1 t).
  pose proof (uint_range N1 t ltac:(lia)) as Hu. fold u in Hu.
  assert (Eones : Z.ones k + 1 = 2 ^ k) by (rewrite Z.ones_equiv; lia).
  rewrite Eones, (uint_id N1 (2 ^ k)) by lia.
  rewrite land_pow2_eqb by (unfold k; lia).
  rewrite Z.land_ones by (unfold k; lia).
  rewrite lor_uint_mask, lor_lnot_ones by (unfold k; lia).
  rewrite sint_uint by lia.
  (* the low bits of u are those of t *)
  assert (Eu : u mod 2 ^ WIDTH1 = t mod 2 ^ WIDTH1).
  { unfold u, uint. apply Z.mod_mod_divide.
    exists (2 ^ (N1 - WIDTH1)). rewrite <- pow2_add by lia. f_equal. lia. }
  pose proof (Z.mod_pos_bound u (2 ^ k) H3) as Bk.
  pose proof (Z.div_mod u (2 ^ k) ltac:(lia)) as Ek.
  pose proof (Z.div_mod (u / 2 ^ k) 2 ltac:(lia)) as E2.
  pose proof (Z.mod_pos_bound (u / 2 ^ k) 2 ltac:(lia)) as B2.
  assert (Elow : u mod 2 ^ WIDTH1 = 2 ^ k * ((u / 2 ^ k) mod 2) + u mod 2 ^ k).
  { symmetry. apply (Z.mod_unique_pos _ _ (u / 2 ^ k / 2)); [nia|].
    rewrite H5. nia. }
  assert (Hk2 : 2 ^ k <= 2 ^ (N1 - 1)) by (apply pow2_le; unfold k; lia).
  assert (Erhs : sint WIDTH1 t
                 = if (u / 2 ^ k) mod 2 =? 0 then u mod 2 ^ k
                   else u mod 2 ^ k - 2 ^ k).
  { unfold sint. fold k.
    rewrite <- (Zplus_mod_idemp_l t), <- Eu, Elow.
    destruct (Z.eqb_spec ((u / 2 ^ k) mod 2) 0) as [E0|E0].
    - rewrite E0, Z.mod_small by lia. lia.
    - assert (E1 : (u / 2 ^ k) mod 2 = 1) by lia. rewrite E1.
      replace (2 ^ k * 1 + u mod 2 ^ k + 2 ^ k)
        with (u mod 2 ^ k + 1 * 2 ^ WIDTH1) by lia.
      rewrite Z.mod_add, Z.mod_small by lia. lia. }
  rewrite Erhs, Zeven_mod.
  destruct ((u / 2 ^ k) mod 2 =? 0).
  - rewrite !(sint_id N1 (u mod 2 ^ k)) by lia. reflexivity.
  - rewrite !(sint_id N1 (u mod 2 ^ k - 2 ^ k)) by lia. reflexivity.
Qed.

(** [exact_adder], where the type of the accumulator has a bit more than
    WIDTH1: the sum is exact and the test of the high bits is the test
    that it fits WIDTH1 bits. *)
Lemma exact_adder_spec :
  WIDTH1 < N1 -> WIDTH1 <= 63 ->
  - 2 ^ k <= accumulator < 2 ^ k -> legal increment ->
  let t := accumulator + significand increment in
  exact_adder pf WIDTH1 accumulator increment
  = if (- 2 ^ k <=? t) && (t <? 2 ^ k) then Returns t else Throws_range_error.
Proof.
  intros HN H63 Hacc Hinc t.
  destruct adder_bits as (H1 & H2 & H3 & H4 & H5 & H6).
  assert (Hle : width increment <= WIDTH1)
    by (unfold static_assert_adder in Hadder; apply Z.geb_le in Hadder; lia).
  destruct Hinc as [Hlo Hhi].
  assert (2 ^ (width increment - 1) <= 2 ^ k) by (apply pow2_le; unfold k; lia).
  assert (Ht : - 2 ^ WIDTH1 < t < 2 ^ WIDTH1) by (unfold t; lia).
  assert (HW1N : 2 ^ WIDTH1 <= 2 ^ (N1 - 1)) by (apply pow2_le; lia).
  unfold exact_adder, get_significand, sadd. rewrite adder_sum_bits_eq.
  cbv zeta. fold N1 t.
  set (Nr := significand_bits pf (WIDTH1 + 1)).
  assert (HNr : N1 <= Nr /\ WIDTH1 + 1 <= Nr).
  { unfold Nr, N1. split; [apply significand_bits_mono; lia|].
    apply significand_bits_fits; lia. }
  assert (HNrp : 2 ^ (N1 - 1) <= 2 ^ (Nr - 1)) by (apply pow2_le; lia).
  rewrite (sint_id N1 t) by lia.
  rewrite (sint_id Nr t) by lia.
  rewrite (sint_id N1 t) by lia.
  rewrite MAX_SIGNIFICAND_VALUE_eq by lia. fold k.
  assert (Hkr : 2 ^ k < 2 ^ Nr) by (apply pow2_lt; unfold k; lia).
  rewrite (uint_id Nr (2 ^ k - 1)) by lia.
  replace (2 ^ k - 1) with (Z.ones k) by (rewrite Z.ones_equiv; lia).
  rewrite uint_lnot_ones by (unfold k; lia).
  set (u := uint Nr t).
  pose proof (uint_range Nr t ltac:(lia)) as Hu. fold u in Hu.
  replace (Z.land u (2 ^ Nr - 2 ^ k)) with (u - u mod 2 ^ k).
  2:{ rewrite <- (uint_lnot_ones Nr k) by (unfold k; lia).
      rewrite land_uint_mask by lia.
      symmetry. apply land_lnot_ones. unfold k; lia. }
  (* the high part of u *)
  assert (HD : 2 ^ Nr = 2 ^ k * 2 ^ (Nr - k))
    by (rewrite <- pow2_add by (unfold k; lia); f_equal; lia).
  assert (HD4 : 4 * 2 ^ k <= 2 ^ Nr).
  { replace (4 * 2 ^ k) with (2 ^ (WIDTH1 + 1)).
    - apply pow2_le; lia.
    - rewrite (pow2_split (WIDTH1 + 1)) by lia.
      replace (WIDTH1 + 1 - 1) with WIDTH1 by lia. lia. }
  pose proof (Z.div_mod u (2 ^ k) ltac:(lia)) as Eu.
  pose proof (Z.mod_pos_bound u (2 ^ k) H3) as Bu.
  set (D := 2 ^ (Nr - k)) in *.
  set (q := u / 2 ^ k) in *. set (r := u mod 2 ^ k) in *.
  replace (u - r) with (2 ^ k * q) by lia.
  assert (Eut : u = t \/ u = t + 2 ^ Nr).
  { unfold u, uint.
    destruct (Z_lt_le_dec t 0).
    - right. symmetry. apply (Z.mod_unique_pos _ _ (-1)); lia.
    - left. apply Z.mod_small. lia. }
  destruct (Z.leb_spec (- 2 ^ k) t) as [Hl|Hl];
    destruct (Z.ltb_spec t (2 ^ k)) as [Hh|Hh]; cbn [andb]; try lia.
  - (* the sum fits *)
    destruct (Z_lt_le_dec t 0).
    + assert (u = t + 2 ^ Nr) by lia.
      assert (q = D - 1) by nia.
      replace (2 ^ k * q) with (2 ^ Nr - 2 ^ k) by nia.
      rewrite Z.eqb_refl, andb_false_r. reflexivity.
    + assert (u = t) by lia.
      assert (q = 0) by nia.
      replace (2 ^ k * q) with 0 by nia.
      reflexivity.
  - (* too large *)
    assert (u = t) by lia.
    assert (1 <= q <= 2) by nia.
    destruct (Z.eqb_spec (2 ^ k * q) 0); [nia|].
    destruct (Z.eqb_spec (2 ^ k * q) (2 ^ Nr - 2 ^ k)); [nia|].
    reflexivity.
  - (* too small *)
    assert (u = t + 2 ^ Nr) by lia.
    assert (D - 3 <= q <= D - 2) by nia.
    destruct (Z.eqb_spec (2 ^ k * q) 0); [nia|].
    destruct (Z.eqb_spec (2 ^ k * q) (2 ^ Nr - 2 ^ k)); [nia|].
    reflexivity.
Qed.

End Adders.

(** C8. [int_adder<WIDTH1>] returns the one value of the WIDTH1-bit two's
    complement range that is congruent to the sum of the accumulator and
    the significand of the increment modulo 2^WIDTH1.  (At WIDTH1 = 12,
    the accumulator 2000 and an increment of width 8 holding 50 it is
    -2046: see the instance below.) *)
Theorem int_adder_wraps (WIDTH1 : Z) (accumulator : Z) (increment : FixedPoint) :
  2 <= WIDTH1 <= 64 -> 2 <= width increment ->
  static_assert_adder WIDTH1 (width increment) = true ->
  - 2 ^ (WIDTH1 - 1) <= accumulator <= 2 ^ (WIDTH1 - 1) - 1 ->
  legal increment ->
  let sum := accumulator + get_significand increment in
  let r := int_adder pf WIDTH1 accumulator increment in
  - 2 ^ (WIDTH1 - 1) <= r <= 2 ^ (WIDTH1 - 1) - 1 /\
  (r - sum) mod 2 ^ WIDTH1 = 0 /\
  forall r' : Z,
    - 2 ^ (WIDTH1 - 1) <= r' <= 2 ^ (WIDTH1 - 1) - 1 ->
    (r' - sum) mod 2 ^ WIDTH1 = 0 -> r' = r.
Proof.
  intros HW1 HW2 Hadder _ _ sum r.
  assert (Er : r = sint WIDTH1 sum)
    by (apply int_adder_sign_extends; assumption).
  pose proof (sint_range WIDTH1 sum ltac:(lia)) as Hr.
  destruct (sint_congr WIDTH1 sum ltac:(lia)) as [c Hc].
  pose proof (pow2_pos WIDTH1 ltac:(lia)) as Hp.
  pose proof (pow2_split WIDTH1 ltac:(lia)) as Hs.
  rewrite <- Er in Hr, Hc.
  split; [lia|]. split.
  - replace (r - sum) with (c * 2 ^ WIDTH1) by lia. apply Z.mod_mul. lia.
  - intros r' Hr' Hm.
    apply Z.mod_divide in Hm; [|lia]. destruct Hm as [c' Hc'].
    assert (c' = c) by nia. subst c'. lia.
Qed.

(** C10. Whatever the accumulator and the increment are, the result of
    [clamp_adder<WIDTH1>] is a legal significand of the width WIDTH1: it
    lies between -(2^(WIDTH1-1)-1) and 2^(WIDTH1-1)-1, and so it is never
    the two's complement minimum -2^(WIDTH1-1). *)
Theorem clamp_adder_legal (WIDTH1 : Z) (accumulator : Z) (increment : FixedPoint) :
  static_assert_clamp WIDTH1 = true ->
  legal_significand WIDTH1 (clamp_adder pf WIDTH1 accumulator increment) /\
  clamp_adder pf WIDTH1 accumulator increment <> - 2 ^ (WIDTH1 - 1).
Proof.
  intros HW. unfold static_assert_clamp, MIN_BIT_WIDTH, MAX_BIT_WIDTH in HW.
  apply andb_true_iff in HW. rewrite !Z.leb_le in HW.
  assert (Hl : legal_significand WIDTH1 (clamp_adder pf WIDTH1 accumulator increment))
    by (unfold clamp_adder; apply clamp_legal; lia).
  split; [exact Hl|].
  destruct Hl as [Hlo _]. lia.
Qed.

(** Where the type of the accumulator has a bit more than WIDTH1,
    [clamp_adder] saturates the exact sum. *)
Lemma clamp_adder_saturates (WIDTH1 : Z) (accumulator : Z) (increment : FixedPoint) :
  2 <= WIDTH1 <= 63 -> WIDTH1 < significand_bits pf WIDTH1 ->
  2 <= width increment ->
  static_assert_adder WIDTH1 (width increment) = true ->
  legal_significand WIDTH1 accumulator -> legal increment ->
  clamp_adder pf WIDTH1 accumulator increment
  = clamp_significand WIDTH1 (accumulator + significand increment).
Proof.
  intros HW1 HN HW2 Hadder [Ha1 Ha2] [Hi1 Hi2].
  assert (Hle : width increment <= WIDTH1)
    by (unfold static_assert_adder in Hadder; apply Z.geb_le in Hadder; lia).
  assert (2 ^ (width increment - 1) <= 2 ^ (WIDTH1 - 1)) by (apply pow2_le; lia).
  pose proof (pow2_split WIDTH1 ltac:(lia)) as Hs.
  pose proof (pow2_pos (WIDTH1 - 1) ltac:(lia)) as Hp.
  set (N1 := significand_bits pf WIDTH1) in *.
  assert (HW1N : 2 ^ WIDTH1 <= 2 ^ (N1 - 1)) by (apply pow2_le; lia).
  unfold clamp_adder, get_significand, sadd.
  rewrite adder_sum_bits_eq by (auto; lia). fold N1.
  set (t := accumulator + significand increment).
  set (Nr := significand_bits pf (WIDTH1 + 1)).
  assert (HNr : N1 <= Nr) by (apply significand_bits_mono; lia).
  assert (HNrp : 2 ^ (N1 - 1) <= 2 ^ (Nr - 1)) by (apply pow2_le; lia).
  rewrite (sint_id N1 t) by (unfold t; lia).
  rewrite (sint_id Nr t) by (unfold t; lia).
  rewrite (sint_id N1 t) by (unfold t; lia).
  unfold clamp, clamp_significand.
  rewrite MAX_SIGNIFICAND_VALUE_eq, MIN_SIGNIFICAND_VALUE_eq by lia.
  reflexivity.
Qed.

(** ** The invariant of the significand *)

Lemma neg_legal (x : FixedPoint) :
  2 <= width x <= 64 -> legal x -> legal (neg pf x).
Proof.
  intros Hw [Hlo Hhi]. unfold legal, neg, sneg; cbn [width significand].
  rewrite (sint_legal (width x)).
  - unfold legal_significand. lia.
  - pose proof (significand_bits_fits (width x)). lia.
  - unfold legal_significand. lia.
Qed.
End Facts.

(** ** Doubles: digits, shifts and rounding *)

(** In the default rounding mode the rounding and the product are those
    of SpecFloat. *)
Lemma dround_aux_nearest (sx : bool) (mx ex : Z) (lx : location) :
  dround_aux FE_TONEAREST sx mx ex lx = binary_round_aux prec emax sx mx ex lx.
Proof. reflexivity. Qed.

Lemma dmul_nearest (x y : double) : dmul FE_TONEAREST x y = SFmul prec emax x y.
Proof. destruct x, y; reflexivity. Qed.

Lemma ldexp_nearest (x : double) (k : Z) :
  ldexp FE_TONEAREST x k = SFldexp prec emax x k.
Proof. destruct x; reflexivity. Qed.

Lemma digits2_pos_size (m : positive) : digits2_pos m = Pos.size m.
Proof. induction m; cbn; congruence. Qed.

(** The number of digits of a mantissa, by its bounds. *)
Lemma digits_bounds (m : positive) :
  2 ^ (Zpos (digits2_pos m) - 1) <= Zpos m < 2 ^ Zpos (digits2_pos m).
Proof.
  rewrite digits2_pos_size.
  pose proof (Pos.size_gt m) as Hgt. pose proof (Pos.size_le m) as Hle.
  apply Pos2Z.pos_lt_pos in Hgt. apply Pos2Z.pos_le_pos in Hle.
  rewrite Pos2Z.inj_pow in Hgt, Hle.
  pose proof (pow2_split (Zpos (Pos.size m)) ltac:(lia)). lia.
Qed.

Lemma digits_unique (m : positive) (d : Z) :
  2 ^ (d - 1) <= Zpos m < 2 ^ d -> Zpos (digits2_pos m) = d.
Proof.
  intros [Hlo Hhi]. pose proof (digits_bounds m) as [Blo Bhi].
  set (dm := Zpos (digits2_pos m)) in *.
  assert (Hdm : 0 < dm) by (unfold dm; lia).
  assert (Hd : 0 < d).
  { destruct (Z_lt_le_dec 0 d); [assumption|exfalso].
    assert (2 ^ d <= 2 ^ 0) by
      (destruct (Z_lt_le_dec d 0);
       [rewrite Z.pow_neg_r by lia; cbn; lia | apply pow2_le; lia]).
    cbn in *. lia. }
  destruct (Z.lt_trichotomy dm d) as [Hlt|[Heq|Hgt]]; [exfalso|assumption|exfalso].
  - assert (2 ^ dm <= 2 ^ (d - 1)) by (apply pow2_le; lia). lia.
  - assert (2 ^ d <= 2 ^ (dm - 1)) by (apply pow2_le; lia). lia.
Qed.

Lemma Zdigits2_pos (m : positive) : Zdigits2 (Zpos m) = Zpos (digits2_pos m).
Proof. reflexivity. Qed.

Lemma fexp_eq (e : Z) : fexp prec emax e = Z.max (e - 53) (-1074).
Proof. reflexivity. Qed.

(** [iter_pos] is the iteration of the standard library. *)
Lemma iter_pos_iter (A : Type) (f : A -> A) (p : positive) (a : A) :
  iter_pos f p a = Pos.iter f a p.
Proof.
  revert a. induction p as [p IH|p IH|]; intros a; cbn.
  - rewrite !IH. rewrite !Pos.iter_swap. reflexivity.
  - rewrite !IH. reflexivity.
  - reflexivity.
Qed.

Lemma iter_xO (m p : positive) : Zpos (Pos.iter xO m p) = Zpos m * 2 ^ Zpos p.
Proof.
  induction p as [|p IH] using Pos.peano_ind.
  - cbn. lia.
  - rewrite Pos.iter_succ, Pos2Z.inj_xO, IH, Pos2Z.inj_succ.
    rewrite Z.pow_succ_r by lia. lia.
Qed.

(** One step of [shr] halves the mantissa. *)
Lemma shr_1_m (mrs : shr_record) :
  0 <= shr_m mrs -> shr_m (shr_1 mrs) = shr_m mrs / 2.
Proof.
  destruct mrs as [m r s]. cbn [shr_m]. intros Hm.
  destruct m as [|[p|p|]|p]; cbn [shr_1 shr_m].
  - reflexivity.
  - apply (Z.div_unique_pos _ _ _ 1); lia.
  - apply (Z.div_unique_pos _ _ _ 0); lia.
  - reflexivity.
  - lia.
Qed.

Lemma shr_iter_m (p : positive) (mrs : shr_record) :
  0 <= shr_m mrs ->
  shr_m (iter_pos shr_1 p mrs) = shr_m mrs / 2 ^ Zpos p.
Proof.
  rewrite iter_pos_iter. revert mrs.
  induction p as [|p IH] using Pos.peano_ind; intros mrs Hm.
  - cbn [Pos.iter]. rewrite shr_1_m by assumption. reflexivity.
  - rewrite Pos.iter_succ, shr_1_m.
    + rewrite IH by assumption.
      rewrite Pos2Z.inj_succ, Z.pow_succ_r by lia.
      rewrite Z.div_div by (try apply pow2_pos; lia).
      f_equal. lia.
    + rewrite IH by assumption. apply Z.div_pos; [assumption|apply pow2_pos; lia].
Qed.

(** Shifting out zeros leaves an exact record. *)
Lemma shr_iter_exact (p : positive) (m : positive) :
  iter_pos shr_1 p (Build_shr_record (Zpos m * 2 ^ Zpos p) false false)
  = Build_shr_record (Zpos m) false false.
Proof.
  rewrite iter_pos_iter. revert m.
  induction p as [|p IH] using Pos.peano_ind; intros m.
  - cbn [Pos.iter]. change (2 ^ 1) with 2.
    replace (Zpos m * 2) with (Zpos (xO m)) by lia. reflexivity.
  - rewrite Pos.iter_succ.
    rewrite Pos2Z.inj_succ, Z.pow_succ_r by lia.
    replace (Zpos m * (2 * 2 ^ Zpos p)) with (Zpos (xO m) * 2 ^ Zpos p) by lia.
    rewrite IH. reflexivity.
Qed.

(** A mantissa of 53 digits followed by zeros is rounded to itself. *)
Lemma shr_fexp_exact (m : positive) (e j : Z) :
  Zpos (digits2_pos m) = 53 -> -1074 <= e -> 0 <= j ->
  shr_fexp prec emax (Zpos m * 2 ^ j) (e - j) loc_Exact
  = (Build_shr_record (Zpos m) false false, e).
Proof.
  intros Hd He Hj. unfold shr_fexp.
  pose proof (digits_bounds m) as Hb. rewrite Hd in Hb.
  pose proof (pow2_pos j Hj) as Hpj.
  destruct (Zpos m * 2 ^ j) as [|M|M] eqn:EM; try lia.
  assert (HM : Zpos (digits2_pos M) = 53 + j).
  { apply digits_unique. rewrite <- EM.
    replace (53 + j - 1) with (52 + j) by lia.
    rewrite !pow2_add by lia. change (53 - 1) with 52 in Hb. nia. }
  rewrite Zdigits2_pos, HM, fexp_eq.
  replace (Z.max (53 + j + (e - j) - 53) (-1074) - (e - j)) with j by lia.
  unfold shr, shr_record_of_loc.
  destruct j as [|p|p]; try lia.
  - rewrite Z.mul_1_r in EM. rewrite <- EM. f_equal. lia.
  - rewrite <- EM. rewrite shr_iter_exact. f_equal. lia.
Qed.

Lemma round_in_mode_exact (mode : rounding_mode) (s : bool) (m : Z) :
  round_in_mode mode s m loc_Exact = m.
Proof. destruct mode; reflexivity. Qed.

Lemma round_exact (mode : rounding_mode) (s : bool) (m : positive) (e j : Z) :
  Zpos (digits2_pos m) = 53 -> -1074 <= e <= 971 -> 0 <= j ->
  dround_aux mode s (Zpos m * 2 ^ j) (e - j) loc_Exact
  = S754_finite s m e.
Proof.
  intros Hd He Hj. unfold dround_aux.
  rewrite shr_fexp_exact by (auto; lia).
  cbn [shr_m loc_of_shr_record]. rewrite round_in_mode_exact.
  pose proof (shr_fexp_exact m e 0 Hd ltac:(lia) ltac:(lia)) as H0.
  rewrite Z.mul_1_r, Z.sub_0_r in H0. rewrite H0.
  cbn [shr_m].
  destruct (Z.leb_spec e (emax - prec)) as [_|H]; [reflexivity|].
  unfold emax, prec in H. lia.
Qed.

Lemma ldexp_normal (mode : rounding_mode) (s : bool) (m : positive) (e k : Z) :
  Zpos (digits2_pos m) = 53 -> -1074 <= e + k <= 971 ->
  ldexp mode (S754_finite s m e) k = S754_finite s m (e + k).
Proof.
  intros Hd He. unfold ldexp, dround, shl_align.
  rewrite Hd, fexp_eq.
  replace (Z.max (53 + (e + k) - 53) (-1074) - (e + k)) with 0 by lia.
  pose proof (round_exact mode s m (e + k) 0 Hd He ltac:(lia)) as H.
  rewrite Z.mul_1_r, Z.sub_0_r in H. exact H.
Qed.

Lemma exp2_normal (k : Z) :
  -1022 <= k <= 1023 -> exp2 k = S754_finite false 4503599627370496 (k - 52).
Proof.
  intros Hk. unfold exp2, dround, shl_align.
  change (Zpos (digits2_pos 1)) with 1. rewrite fexp_eq.
  replace (Z.max (1 + k - 53) (-1074) - k) with (-52) by lia.
  change (shift_pos 52 1) with 4503599627370496%positive.
  replace (Z.max (1 + k - 53) (-1074)) with (k - 52) by lia.
  pose proof (round_exact FE_TONEAREST false 4503599627370496 (k - 52) 0
                eq_refl ltac:(lia) ltac:(lia)) as H.
  rewrite Z.mul_1_r, Z.sub_0_r in H. exact H.
Qed.

Lemma dmul_exp2 (mode : rounding_mode) (s : bool) (m : positive) (e k : Z) :
  Zpos (digits2_pos m) = 53 -> -1074 <= e + k <= 971 -> -1022 <= k <= 1023 ->
  dmul mode (S754_finite s m e) (exp2 k) = S754_finite s m (e + k).
Proof.
  intros Hd He Hk. rewrite exp2_normal by assumption.
  unfold dmul. rewrite xorb_false_r.
  rewrite Pos2Z.inj_mul. change (Zpos 4503599627370496) with (2 ^ 52).
  replace (e + (k - 52)) with (e + k - 52) by lia.
  apply round_exact; auto; lia.
Qed.

(** The double that a nonzero integer of less than 54 bits converts to:
    its magnitude shifted to 53 digits. *)
Lemma binary_round_integer (mode : rounding_mode) (s : bool) (q : positive) :
  Zpos q < 2 ^ 53 ->
  exists m : positive,
    dround mode s q 0 = S754_finite s m (Zpos (digits2_pos q) - 53) /\
    Zpos m = Zpos q * 2 ^ (53 - Zpos (digits2_pos q)) /\
    Zpos (digits2_pos m) = 53.
Proof.
  intros Hq. pose proof (digits_bounds q) as Hb.
  set (dq := Zpos (digits2_pos q)) in *.
  assert (Hdq : 1 <= dq <= 53).
  { split; [unfold dq; lia|].
    destruct (Z_le_gt_dec dq 53); [assumption|exfalso].
    assert (2 ^ 53 <= 2 ^ (dq - 1)) by (apply pow2_le; lia). lia. }
  unfold dround, shl_align. fold dq.
  rewrite fexp_eq.
  replace (Z.max (dq + 0 - 53) (-1074)) with (dq - 53) by lia.
  rewrite Z.sub_0_r.
  destruct (dq - 53) as [|p|p] eqn:Ep; try lia.
  - (* 53 digits already *)
    exists q. assert (dq = 53) by lia.
    pose proof (round_exact mode s q 0 0 ltac:(fold dq; lia) ltac:(lia) ltac:(lia)) as H0.
    rewrite Z.mul_1_r in H0. cbn in H0.
    split; [exact H0|]. split; [|fold dq; lia].
    replace (53 - dq) with 0 by lia. lia.
  - exists (Pos.iter xO q p).
    assert (Em : Zpos (Pos.iter xO q p) = Zpos q * 2 ^ (53 - dq))
      by (rewrite iter_xO; f_equal; f_equal; lia).
    assert (Hdm : Zpos (digits2_pos (Pos.iter xO q p)) = 53).
    { apply digits_unique. rewrite Em. change (53 - 1) with 52.
      assert (E1 : 2 ^ 52 = 2 ^ (dq - 1) * 2 ^ (53 - dq))
        by (rewrite <- pow2_add by lia; f_equal; lia).
      assert (E2 : 2 ^ 53 = 2 ^ dq * 2 ^ (53 - dq))
        by (rewrite <- pow2_add by lia; f_equal; lia).
      rewrite E1, E2.
      pose proof (pow2_pos (53 - dq) ltac:(lia)). nia. }
    pose proof (round_exact mode s (Pos.iter xO q p) (Zneg p) 0 Hdm ltac:(lia) ltac:(lia)) as H0.
    rewrite Z.mul_1_r, Z.sub_0_r in H0.
    split; [exact H0|]. split; assumption.
Qed.

(** The digits of a positive integer. *)
Lemma Zdigits2_bounds (m : Z) :
  0 < m -> 2 ^ (Zdigits2 m - 1) <= m < 2 ^ Zdigits2 m.
Proof. destruct m as [|p|p]; try lia. intros _. apply digits_bounds. Qed.

Lemma Zdigits2_unique (m d : Z) :
  0 < m -> 2 ^ (d - 1) <= m < 2 ^ d -> Zdigits2 m = d.
Proof. destruct m as [|p|p]; try lia. intros _. apply digits_unique. Qed.

Lemma Zdigits2_pos_lt (m : Z) : 0 < m -> 0 < Zdigits2 m.
Proof. destruct m as [|p|p]; cbn; lia. Qed.

Lemma Zdigits2_mono (m m' : Z) : 0 < m <= m' -> Zdigits2 m <= Zdigits2 m'.
Proof.
  intros Hm.
  pose proof (Zdigits2_bounds m ltac:(lia)) as B.
  pose proof (Zdigits2_bounds m' ltac:(lia)) as B'.
  pose proof (Zdigits2_pos_lt m ltac:(lia)).
  pose proof (Zdigits2_pos_lt m' ltac:(lia)).
  destruct (Z_le_gt_dec (Zdigits2 m) (Zdigits2 m')); [assumption|exfalso].
  assert (2 ^ Zdigits2 m' <= 2 ^ (Zdigits2 m - 1)) by (apply pow2_le; lia). lia.
Qed.

Lemma Zdigits2_div (m k : Z) :
  0 < m -> 0 <= k -> 0 < m / 2 ^ k -> Zdigits2 (m / 2 ^ k) = Zdigits2 m - k.
Proof.
  intros Hm Hk Hq.
  pose proof (Zdigits2_bounds m Hm) as [Blo Bhi].
  pose proof (Zdigits2_pos_lt m Hm) as Hd.
  pose proof (pow2_pos k Hk) as Hpk.
  set (d := Zdigits2 m) in *.
  assert (Hkd : k <= d - 1).
  { destruct (Z_le_gt_dec k (d - 1)); [assumption|exfalso].
    assert (2 ^ d <= 2 ^ k) by (apply pow2_le; lia).
    rewrite Z.div_small in Hq by lia. lia. }
  apply Zdigits2_unique; [assumption|].
  assert (E1 : 2 ^ (d - 1) = 2 ^ (d - k - 1) * 2 ^ k)
    by (rewrite <- pow2_add by lia; f_equal; lia).
  assert (E2 : 2 ^ d = 2 ^ (d - k) * 2 ^ k)
    by (rewrite <- pow2_add by lia; f_equal; lia).
  split.
  - apply Z.div_le_lower_bound; lia.
  - apply Z.div_lt_upper_bound; lia.
Qed.

Lemma shr_record_of_loc_m (m : Z) (l : location) : shr_m (shr_record_of_loc m l) = m.
Proof. destruct l as [|[| |]]; reflexivity. Qed.

(** What [shr_fexp] does to a mantissa and an exponent. *)
Lemma shr_fexp_spec (m e : Z) (l : location) :
  0 <= m ->
  let k := Z.max 0 (fexp prec emax (Zdigits2 m + e) - e) in
  shr_m (fst (shr_fexp prec emax m e l)) = m / 2 ^ k /\
  snd (shr_fexp prec emax m e l) = e + k.
Proof.
  intros Hm k. unfold shr_fexp, shr.
  destruct (fexp prec emax (Zdigits2 m + e) - e) as [|p|p] eqn:Ek; subst k;
    cbn [fst snd].
  - rewrite shr_record_of_loc_m. cbn. rewrite Z.div_1_r. lia.
  - rewrite shr_iter_m by (rewrite shr_record_of_loc_m; assumption).
    rewrite shr_record_of_loc_m.
    replace (Z.max 0 (Zpos p)) with (Zpos p) by lia. split; reflexivity.
  - rewrite shr_record_of_loc_m.
    replace (Z.max 0 (Zneg p)) with 0 by lia. cbn. rewrite Z.div_1_r. lia.
Qed.

Lemma round_in_mode_cases (mode : rounding_mode) (s : bool) (m : Z) (l : location) :
  round_in_mode mode s m l = m \/ round_in_mode mode s m l = m + 1.
Proof.
  destruct mode, s, l as [|[| |]]; cbn; auto; destruct (Z.even m); auto.
Qed.

Lemma overflow_valid (mode : rounding_mode) (s : bool) :
  valid_binary prec emax (overflow mode s) = true.
Proof. destruct mode, s; reflexivity. Qed.

(** The result of a rounding whose mantissa has digits enough is a valid
    double. *)
Lemma binary_round_aux_valid (mode : rounding_mode) (sx : bool) (mx : positive)
  (ex : Z) (lx : location) :
  ex <= fexp prec emax (Zpos (digits2_pos mx) + ex) ->
  valid_binary prec emax (dround_aux mode sx (Zpos mx) ex lx) = true.
Proof.
  intros Hex. unfold dround_aux.
  pose proof (shr_fexp_spec (Zpos mx) ex lx ltac:(lia)) as [Hm1 He1].
  destruct (shr_fexp prec emax (Zpos mx) ex lx) as [mrs1 e1].
  cbn [fst snd] in Hm1, He1.
  rewrite Zdigits2_pos in Hm1, He1.
  set (d := Zpos (digits2_pos mx)) in *.
  rewrite fexp_eq in Hex, Hm1, He1.
  set (k1 := Z.max 0 (Z.max (d + ex - 53) (-1074) - ex)) in *.
  set (m1 := shr_m mrs1) in *.
  pose proof (pow2_pos k1 ltac:(unfold k1; lia)) as Hpk1.
  assert (Hm1n : 0 <= m1) by (rewrite Hm1; apply Z.div_pos; lia).
  (* the first shift leaves a canonical mantissa, or nothing *)
  assert (F1 : 0 < m1 -> Zdigits2 m1 + e1 = d + ex).
  { intros Hp. rewrite Hm1.
    rewrite (Zdigits2_div (Zpos mx) k1) by (try rewrite <- Hm1; unfold k1; lia).
    rewrite Zdigits2_pos. fold d. lia. }
  assert (F0 : m1 = 0 -> e1 = -1074).
  { intros Hz. rewrite Hm1 in Hz.
    apply Z.div_small_iff in Hz; [|lia].
    destruct Hz as [Hz|Hz]; [|lia].
    pose proof (digits_bounds mx) as [Blo _]. fold d in Blo.
    destruct (Z_le_gt_dec d k1) as [Hle|Hgt].
    - unfold k1 in *. lia.
    - exfalso. assert (2 ^ k1 <= 2 ^ (d - 1)) by (apply pow2_le; unfold k1 in *; lia).
      lia. }
  assert (He1min : -1074 <= e1) by (unfold k1 in *; lia).
  set (m2 := round_in_mode mode sx m1 (loc_of_shr_record mrs1)).
  assert (Hm2 : m2 = m1 \/ m2 = m1 + 1) by apply round_in_mode_cases.
  pose proof (shr_fexp_spec m2 e1 loc_Exact ltac:(lia)) as [Hm3 He3].
  destruct (shr_fexp prec emax m2 e1 loc_Exact) as [mrs3 e3].
  cbn [fst snd] in Hm3, He3. rewrite fexp_eq in Hm3, He3.
  set (k2 := Z.max 0 (Z.max (Zdigits2 m2 + e1 - 53) (-1074) - e1)) in *.
  pose proof (pow2_pos k2 ltac:(unfold k2; lia)) as Hpk2.
  destruct (shr_m mrs3) as [|m3|m3] eqn:Em3; [reflexivity| |reflexivity].
  destruct (Z.leb_spec e3 (emax - prec)) as [Hle|Hgt]; [|apply overflow_valid].
  cbn [valid_binary]. unfold bounded, canonical_mantissa.
  apply andb_true_iff. split; [|apply Z.leb_le; exact Hle].
  apply Z.eqb_eq. rewrite fexp_eq.
  assert (Hm2p : 0 < m2).
  { destruct (Z_lt_le_dec 0 m2); [assumption|exfalso].
    assert (m2 = 0) by lia. rewrite H in Hm3. rewrite Z.div_0_l in Hm3 by lia. lia. }
  assert (Hk2 : e1 <= Z.max (Zdigits2 m2 + e1 - 53) (-1074)).
  { destruct (Z_lt_le_dec 0 m1) as [Hp|Hz].
    - pose proof (Zdigits2_mono m1 m2 ltac:(lia)).
      specialize (F1 Hp). unfold k1 in *. lia.
    - rewrite (F0 ltac:(lia)). lia. }
  assert (Ed3 : Zdigits2 (Zpos m3) = Zdigits2 m2 - k2).
  { rewrite Hm3. apply Zdigits2_div; unfold k2 in *; lia. }
  rewrite Zdigits2_pos in Ed3. rewrite Ed3. unfold k2 in *. lia.
Qed.

(** The product of a double and a power of two, and its rounding to an
    integral value, are valid doubles. *)
Lemma dmul_exp2_valid (mode : rounding_mode) (a : double) (k : Z) :
  -1022 <= k <= 1023 -> valid_binary prec emax (dmul mode a (exp2 k)) = true.
Proof.
  intros Hk. rewrite exp2_normal by assumption.
  destruct a as [s| s | |s m e]; try reflexivity.
  unfold dmul.
  apply binary_round_aux_valid.
  rewrite fexp_eq.
  pose proof (digits_bounds m) as [Blo Bhi].
  set (dm := Zpos (digits2_pos m)) in *.
  assert (Hdm : 1 <= dm) by (unfold dm; lia).
  assert (Ed : Zpos (digits2_pos (m * 4503599627370496)) = dm + 52).
  { apply digits_unique. rewrite Pos2Z.inj_mul.
    change (Zpos 4503599627370496) with (2 ^ 52).
    replace (dm + 52 - 1) with ((dm - 1) + 52) by lia.
    rewrite !pow2_add by lia. lia. }
  rewrite Ed. lia.
Qed.

Lemma round_magnitude_bounds (mode : rounding_mode) (s : bool) (m k : Z) :
  0 < m -> 0 < k ->
  0 <= round_magnitude mode s m k <= m / 2 ^ k + 1.
Proof.
  intros Hm Hk.
  assert (0 <= m / 2 ^ k) by (apply Z.div_pos; [lia|apply pow2_pos; lia]).
  unfold round_magnitude.
  destruct mode.
  - destruct (2 * (m mod 2 ^ k) ?= 2 ^ k); [destruct (Z.even _)| |]; lia.
  - destruct (s && negb (m mod 2 ^ k =? 0)); lia.
  - destruct (negb s && negb (m mod 2 ^ k =? 0)); lia.
  - lia.
Qed.

(** A valid double with a nonnegative exponent has 53 digits. *)
Lemma valid_finite (s : bool) (m : positive) (e : Z) :
  valid_binary prec emax (S754_finite s m e) = true ->
  Zpos (digits2_pos m) <= 53 /\ -1074 <= e <= 971 /\
  (-1074 < e -> Zpos (digits2_pos m) = 53).
Proof.
  cbn [valid_binary]. unfold bounded, canonical_mantissa.
  rewrite andb_true_iff, Z.eqb_eq, Z.leb_le, fexp_eq.
  unfold emax, prec. lia.
Qed.

(** The integer that the conversion of an integral double gives. *)
Lemma int_of_binary_round (mode : rounding_mode) (N : Z) (s : bool) (q : positive)
  (i : Z) :
  Zpos q < 2 ^ 53 ->
  int_of_double N (dround mode s q 0) = Some i ->
  i = cond_Zopp s (Zpos q).
Proof.
  intros Hq Hi.
  destruct (binary_round_integer mode s q Hq) as (m & Hx & Hm & Hd).
  rewrite Hx in Hi. unfold int_of_double in Hi.
  pose proof (digits_bounds q) as Hb.
  set (dq := Zpos (digits2_pos q)) in *.
  assert (Hdq : 1 <= dq <= 53).
  { split; [unfold dq; lia|].
    destruct (Z_le_gt_dec dq 53); [assumption|exfalso].
    assert (2 ^ 53 <= 2 ^ (dq - 1)) by (apply pow2_le; lia). lia. }
  assert (Et : (if 0 <=? dq - 53 then Zpos m * 2 ^ (dq - 53)
                else Zpos m / 2 ^ (- (dq - 53))) = Zpos q).
  { destruct (Z.leb_spec 0 (dq - 53)).
    - replace (dq - 53) with 0 by lia.
      rewrite Hm. replace (53 - dq) with 0 by lia. cbn. lia.
    - rewrite Hm. replace (- (dq - 53)) with (53 - dq) by lia.
      apply Z.div_mul. pose proof (pow2_pos (53 - dq) ltac:(lia)). lia. }
  rewrite Et in Hi.
  destruct (_ && _); [|discriminate]. congruence.
Qed.

(** What the rounding to an integral value of a valid double is, when
    it converts to an integer: a zero, the double of an integer of less
    than 54 bits, or a double of 2^53 at least. *)
Lemma int_of_nearbyint (N : Z) (mode : rounding_mode) (y : double) (i : Z) :
  valid_binary prec emax y = true ->
  int_of_double N (nearbyint mode y) = Some i ->
  (i = 0 /\ exists s, nearbyint mode y = S754_zero s) \/
  (exists s q, Zpos q < 2 ^ 53 /\
     nearbyint mode y = dround mode s q 0 /\
     i = cond_Zopp s (Zpos q)) \/
  (exists s m e, nearbyint mode y = S754_finite s m e /\
     Zpos (digits2_pos m) = 53 /\ 1 <= e <= 971 /\
     i = cond_Zopp s (Zpos m * 2 ^ e)).
Proof.
  intros Hv Hi.
  destruct y as [s|s| |s m e]; cbn [nearbyint] in *; try discriminate.
  - left. cbn in Hi. split; [congruence|eauto].
  - apply valid_finite in Hv. destruct Hv as (Hd & He & Hn).
    pose proof (digits_bounds m) as [Blo Bhi].
    assert (Hm53 : Zpos m < 2 ^ 53).
    { assert (2 ^ Zpos (digits2_pos m) <= 2 ^ 53) by (apply pow2_le; lia). lia. }
    destruct (Z.leb_spec 0 e) as [Hpos|Hneg].
    + specialize (Hn ltac:(lia)).
      destruct (Z.eq_dec e 0) as [->|Hne].
      * (* an integer of 53 digits *)
        right; left. exists s, m.
        destruct (binary_round_integer mode s m Hm53) as (m' & Hx & Hm' & _).
        rewrite Hn in Hx, Hm'. change (53 - 53) with 0 in *.
        rewrite Z.mul_1_r in Hm'. injection Hm' as ->.
        rewrite Hx in *. split; [assumption|]. split; [reflexivity|].
        rewrite <- Hx in Hi. apply (int_of_binary_round mode N); assumption.
      * right; right. exists s, m, e.
        split; [reflexivity|]. split; [assumption|]. split; [lia|].
        unfold int_of_double in Hi.
        destruct (Z.leb_spec 0 e); [|lia].
        destruct (_ && _); [|discriminate]. congruence.
    + pose proof (round_magnitude_bounds mode s (Zpos m) (- e) ltac:(lia) ltac:(lia))
        as [Hq0 Hq1].
      set (q := round_magnitude mode s (Zpos m) (- e)) in *.
      destruct (Z.eqb_spec q 0) as [Hz|Hnz].
      * left. cbn in Hi. split; [congruence|eauto].
      * right; left.
        assert (Hq53 : q < 2 ^ 53).
        { assert (Zpos m / 2 ^ (- e) < 2 ^ 52); [|change (2 ^ 53) with (2 * 2 ^ 52); lia].
          apply Z.div_lt_upper_bound; [apply pow2_pos; lia|].
          assert (2 <= 2 ^ (- e))
            by (change 2 with (2 ^ 1) at 1; apply pow2_le; lia).
          change (2 ^ 53) with (2 * 2 ^ 52) in Hm53. nia. }
        destruct q as [|qp|qp]; try lia.
        exists s, qp. split; [assumption|].
        assert (Ex : double_of_int mode (cond_Zopp s (Zpos qp))
                     = dround mode s qp 0)
          by (destruct s; reflexivity).
        rewrite Ex in *. split; [reflexivity|].
        apply (int_of_binary_round mode N); assumption.
Qed.

(** The order of the doubles of two integers is the order of the
    integers. *)
Lemma dlt_binary_round (mode : rounding_mode) (sa : bool) (a : positive)
  (sb : bool) (b : positive) :
  Zpos a < 2 ^ 53 -> Zpos b < 2 ^ 53 ->
  dlt (dround mode sa a 0) (dround mode sb b 0)
  = (cond_Zopp sa (Zpos a) <? cond_Zopp sb (Zpos b)).
Proof.
  intros Ha Hb.
  destruct (binary_round_integer mode sa a Ha) as (ma & -> & Hma & Hda).
  destruct (binary_round_integer mode sb b Hb) as (mb & -> & Hmb & Hdb).
  pose proof (digits_bounds a) as Ba. pose proof (digits_bounds b) as Bb.
  set (da := Zpos (digits2_pos a)) in *. set (db := Zpos (digits2_pos b)) in *.
  assert (Hda1 : 1 <= da <= 53).
  { split; [unfold da; lia|].
    destruct (Z_le_gt_dec da 53); [assumption|exfalso].
    assert (2 ^ 53 <= 2 ^ (da - 1)) by (apply pow2_le; lia). lia. }
  assert (Hdb1 : 1 <= db <= 53).
  { split; [unfold db; lia|].
    destruct (Z_le_gt_dec db 53); [assumption|exfalso].
    assert (2 ^ 53 <= 2 ^ (db - 1)) by (apply pow2_le; lia). lia. }
  (* the comparison of the exponents and of the mantissas *)
  assert (Hlt : da < db -> Zpos a < Zpos b).
  { intros H. assert (2 ^ da <= 2 ^ (db - 1)) by (apply pow2_le; lia). lia. }
  assert (Hgt : db < da -> Zpos b < Zpos a).
  { intros H. assert (2 ^ db <= 2 ^ (da - 1)) by (apply pow2_le; lia). lia. }
  assert (Heq : da = db ->
                Pos.compare_cont Eq ma mb = (Zpos a ?= Zpos b)).
  { intros H. change (Pos.compare_cont Eq ma mb) with (Zpos ma ?= Zpos mb).
    rewrite Hma, Hmb, H.
    symmetry. apply Zmult_compare_compat_r.
    pose proof (pow2_pos (53 - db) ltac:(lia)). lia. }
  unfold dlt, SFltb, SFcompare.
  destruct sa, sb; cbn [cond_Zopp].
  - (* both negative *)
    destruct (Z.compare_spec (da - 53) (db - 53)) as [E|E|E].
    + rewrite Heq by lia.
      destruct (Z.compare_spec (Zpos a) (Zpos b)); cbn [CompOpp];
        symmetry; [apply Z.ltb_ge|apply Z.ltb_ge|apply Z.ltb_lt]; lia.
    + specialize (Hlt ltac:(lia)). symmetry. apply Z.ltb_ge. lia.
    + specialize (Hgt ltac:(lia)). symmetry. apply Z.ltb_lt. lia.
  - symmetry. apply Z.ltb_lt. lia.
  - symmetry. apply Z.ltb_ge. lia.
  - destruct (Z.compare_spec (da - 53) (db - 53)) as [E|E|E].
    + rewrite Heq by lia.
      destruct (Z.compare_spec (Zpos a) (Zpos b));
        symmetry; [apply Z.ltb_ge|apply Z.ltb_lt|apply Z.ltb_ge]; lia.
    + specialize (Hlt ltac:(lia)). symmetry. apply Z.ltb_lt. lia.
    + specialize (Hgt ltac:(lia)). symmetry. apply Z.ltb_ge. lia.
Qed.

(** A double of 2^53 at least against the double of a smaller integer. *)
Lemma dlt_integer_big (mode : rounding_mode) (sb : bool) (b : positive) (s : bool)
  (m : positive) (e : Z) :
  Zpos b < 2 ^ 53 -> 1 <= e ->
  dlt (dround mode sb b 0) (S754_finite s m e)
  = (if s then false else true) /\
  dlt (S754_finite s m e) (dround mode sb b 0)
  = (if s then true else false).
Proof.
  intros Hb He.
  destruct (binary_round_integer mode sb b Hb) as (mb & -> & Hmb & Hdb).
  pose proof (digits_bounds b) as Bb.
  set (db := Zpos (digits2_pos b)) in *.
  assert (Hdb1 : db <= 53).
  { destruct (Z_le_gt_dec db 53); [assumption|exfalso].
    assert (2 ^ 53 <= 2 ^ (db - 1)) by (apply pow2_le; lia). lia. }
  unfold dlt, SFltb, SFcompare.
  assert (E1 : (db - 53 ?= e) = Lt) by (apply Z.compare_lt_iff; lia).
  assert (E2 : (e ?= db - 53) = Gt) by (apply Z.compare_gt_iff; lia).
  rewrite E1, E2. destruct sb, s; split; reflexivity.
Qed.

(** The constant MAX_VALUE of [limit_precision]. *)
Lemma max_value_eq (N W : Z) :
  1 <= W <= N ->
  sint N (uint N (uint N (Z.shiftl (uint N 1) (W - 1)) - 1)) = 2 ^ (W - 1) - 1.
Proof.
  intros HW.
  assert (H1 : 1 < 2 ^ N) by (change 1 with (2 ^ 0) at 1; apply pow2_lt; lia).
  assert (Hlt : 2 ^ (W - 1) < 2 ^ N) by (apply pow2_lt; lia).
  assert (Hpos : 0 < 2 ^ (W - 1)) by (apply pow2_pos; lia).
  assert (2 ^ (W - 1) <= 2 ^ (N - 1)) by (apply pow2_le; lia).
  rewrite (uint_id N 1) by lia.
  rewrite Z.shiftl_1_l.
  rewrite (uint_id N (2 ^ (W - 1))) by lia.
  rewrite uint_id by lia.
  apply sint_id; lia.
Qed.

Lemma sneg_max_value (N W : Z) :
  1 <= W <= N -> sneg N (2 ^ (W - 1) - 1) = - (2 ^ (W - 1) - 1).
Proof.
  intros HW. unfold sneg.
  assert (Hpos : 0 < 2 ^ (W - 1)) by (apply pow2_pos; lia).
  assert (2 ^ (W - 1) <= 2 ^ (N - 1)) by (apply pow2_le; lia).
  apply sint_id; lia.
Qed.

Lemma double_of_int_signed (mode : rounding_mode) (s : bool) (q : positive) :
  double_of_int mode (cond_Zopp s (Zpos q)) = dround mode s q 0.
Proof. destruct s; reflexivity. Qed.

Lemma deq_refl_finite (s : bool) (m : positive) (e : Z) :
  deq (S754_finite s m e) (S754_finite s m e) = true.
Proof.
  unfold deq, SFeqb, SFcompare.
  rewrite Z.compare_refl, Pos.compare_cont_refl. destruct s; reflexivity.
Qed.

(** Scaling the double of a legal significand by 2^place, with [ldexp]
    as [operator double] does and with a product as [limit_precision]
    does, is exact and gives one and the same double. *)
Lemma scale_significand (mode : rounding_mode) (s : bool) (q : positive) (W P : Z) :
  static_assert_FixedPoint W P = true -> Zpos q <= 2 ^ (W - 1) - 1 ->
  exists (m : positive) (e : Z),
    ldexp mode (dround mode s q 0) P = S754_finite s m e /\
    dmul mode (dround mode s q 0) (exp2 P) = S754_finite s m e.
Proof.
  intros T Hq. apply static_assert_FixedPoint_spec in T.
  assert (HW53 : 2 ^ (W - 1) <= 2 ^ 53) by (apply pow2_le; lia).
  destruct (binary_round_integer mode s q ltac:(lia)) as (m & -> & Hm & Hd).
  pose proof (digits_bounds q) as Bq.
  set (dq := Zpos (digits2_pos q)) in *.
  assert (Hdq : 1 <= dq <= W - 1).
  { split; [unfold dq; lia|].
    destruct (Z_le_gt_dec dq (W - 1)); [assumption|exfalso].
    assert (2 ^ (W - 1) <= 2 ^ (dq - 1)) by (apply pow2_le; lia). lia. }
  exists m, (dq - 53 + P).
  split; [apply ldexp_normal | apply dmul_exp2]; auto; lia.
Qed.

Section DoubleConversion.
Variable pf : Platform.
Hypothesis Hpf : conforming pf.

(** When the rounded product nearbyint(d * 2^-PLACE) is finite and
    within the range of the integer type of the significand, so that
    its conversion to that type is defined, the [FixedPoint<WIDTH, PLACE>]
    constructed from [d] converts back to a double that compares equal
    to limit_precision(d, WIDTH, PLACE), in every rounding mode; the
    two doubles are one and the same but for a zero, which
    [limit_precision] returns with the sign of [d] and the [FixedPoint]
    returns without. *)
Theorem from_double_limit_precision (mode : rounding_mode) (WIDTH PLACE : Z)
  (d : double) (r : FixedPoint) :
  static_assert_FixedPoint WIDTH PLACE = true ->
  from_double pf mode WIDTH PLACE d = Some r ->
  deq (to_double mode r) (limit_precision pf mode d WIDTH PLACE) = true /\
  (to_double mode r = limit_precision pf mode d WIDTH PLACE \/
   to_double mode r = S754_zero false /\
   limit_precision pf mode d WIDTH PLACE = S754_zero true).
Proof.
  intros T Hr. pose proof T as T'. apply static_assert_FixedPoint_spec in T'.
  unfold from_double, to_significand in Hr.
  destruct (int_of_double _ _) as [i|] eqn:Ei; [|discriminate].
  injection Hr as <-.
  unfold to_double, limit_precision; cbn [significand place].
  assert (H64 : 64 <= int_fast64_bits pf) by (destruct Hpf as (_ & ? & _); assumption).
  rewrite max_value_eq, sneg_max_value by lia.
  unfold clamp.
  rewrite (MAX_SIGNIFICAND_VALUE_eq pf Hpf), (MIN_SIGNIFICAND_VALUE_eq pf Hpf) by lia.
  assert (HMAX : 1 <= 2 ^ (WIDTH - 1) - 1 < 2 ^ 53).
  { assert (2 ^ 1 <= 2 ^ (WIDTH - 1)) by (apply pow2_le; lia).
    assert (2 ^ (WIDTH - 1) <= 2 ^ 53) by (apply pow2_le; lia).
    change (2 ^ 1) with 2 in *. lia. }
  destruct (2 ^ (WIDTH - 1) - 1) as [|M|M] eqn:EM; try lia.
  change (double_of_int mode (Zpos M)) with (dround mode false M 0).
  change (double_of_int mode (- Zpos M)) with (dround mode true M 0).
  assert (Hv : valid_binary prec emax (dmul mode d (exp2 (- PLACE))) = true)
    by (apply dmul_exp2_valid; lia).
  (* the last step, for a clamped magnitude [q] of sign [s] *)
  assert (Hscale : forall s q, Zpos q <= Zpos M ->
            let c := cond_Zopp s (Zpos q) in
            let a := dround mode s q 0 in
            deq (ldexp mode (double_of_int mode c) PLACE) (dmul mode a (exp2 PLACE)) = true /\
            (ldexp mode (double_of_int mode c) PLACE = dmul mode a (exp2 PLACE) \/
             ldexp mode (double_of_int mode c) PLACE = S754_zero false /\
             dmul mode a (exp2 PLACE) = S754_zero true)).
  { intros s q Hq c a. unfold c, a. rewrite double_of_int_signed.
    destruct (scale_significand mode s q WIDTH PLACE T ltac:(lia)) as (m & e & -> & ->).
    split; [apply deq_refl_finite | left; reflexivity]. }
  destruct (int_of_nearbyint _ mode _ i Hv Ei)
    as [(Hi & s & Hx) | [(s & q & Hq & Hx & Hi) | (s & m & e & Hx & Hd & He & Hi)]];
    rewrite Hx.
  - (* a zero *)
    subst i.
    destruct (binary_round_integer mode false M ltac:(lia)) as (mM & -> & _ & _).
    destruct (binary_round_integer mode true M ltac:(lia)) as (mM' & -> & _ & _).
    assert (E1 : dlt (S754_finite false mM (Zpos (digits2_pos M) - 53)) (S754_zero s)
                 = false) by reflexivity.
    assert (E2 : dlt (S754_zero s) (S754_finite true mM' (Zpos (digits2_pos M) - 53))
                 = false) by reflexivity.
    rewrite E1, E2.
    destruct (Z.gtb_spec 0 (Zpos M)); [lia|].
    destruct (Z.ltb_spec 0 (- Zpos M)); [lia|].
    rewrite exp2_normal by lia.
    cbn. destruct s; cbn; auto.
  - (* the double of an integer of less than 54 bits *)
    rewrite !dlt_binary_round by lia. cbn [cond_Zopp]. rewrite <- Hi.
    rewrite Z.gtb_ltb.
    destruct (Z.ltb_spec (Zpos M) i) as [H1|H1].
    + apply (Hscale false M). lia.
    + destruct (Z.ltb_spec i (- Zpos M)) as [H2|H2].
      * apply (Hscale true M). lia.
      * rewrite Hi. apply (Hscale s q). destruct s; cbn [cond_Zopp] in Hi; lia.
  - (* a double of 2^53 at least *)
    destruct (dlt_integer_big mode false M s m e ltac:(lia) ltac:(lia)) as [-> _].
    destruct (dlt_integer_big mode true M s m e ltac:(lia) ltac:(lia)) as [_ ->].
    pose proof (digits_bounds m) as [Blo _]. rewrite Hd in Blo.
    assert (2 ^ 1 <= 2 ^ e) by (apply pow2_le; lia).
    change (2 ^ 1) with 2 in *. change (53 - 1) with 52 in Blo.
    change (2 ^ 53) with (2 * 2 ^ 52) in HMAX.
    assert (Hbig : Zpos M < Zpos m * 2 ^ e) by nia.
    rewrite Z.gtb_ltb.
    destruct s; cbn [cond_Zopp] in Hi.
    + destruct (Z.ltb_spec (Zpos M) i) as [H1|H1]; [lia|].
      destruct (Z.ltb_spec i (- Zpos M)) as [H2|H2]; [|lia].
      apply (Hscale true M). lia.
    + destruct (Z.ltb_spec (Zpos M) i) as [H1|H1]; [|lia].
      apply (Hscale false M). lia.
Qed.

End DoubleConversion.

(** A [FixedPoint] never converts to a NaN. *)
Lemma binary_round_aux_not_nan (mode : rounding_mode) (sx : bool) (mx : positive)
  (ex : Z) (lx : location) :
  dround_aux mode sx (Zpos mx) ex lx <> S754_nan.
Proof.
  unfold dround_aux.
  pose proof (shr_fexp_spec (Zpos mx) ex lx ltac:(lia)) as [Hm1 _].
  destruct (shr_fexp prec emax (Zpos mx) ex lx) as [mrs1 e1].
  cbn [fst snd] in Hm1.
  assert (Hm1n : 0 <= shr_m mrs1).
  { rewrite Hm1. apply Z.div_pos; [lia|]. apply pow2_pos. lia. }
  set (m2 := round_in_mode mode sx (shr_m mrs1) (loc_of_shr_record mrs1)).
  assert (Hm2 : 0 <= m2)
    by (destruct (round_in_mode_cases mode sx (shr_m mrs1) (loc_of_shr_record mrs1));
        unfold m2; lia).
  pose proof (shr_fexp_spec m2 e1 loc_Exact Hm2) as [Hm3 _].
  destruct (shr_fexp prec emax m2 e1 loc_Exact) as [mrs3 e3].
  cbn [fst snd] in Hm3.
  assert (Hm3n : 0 <= shr_m mrs3).
  { rewrite Hm3. apply Z.div_pos; [lia|]. apply pow2_pos. lia. }
  destruct (shr_m mrs3); try discriminate; [|lia].
  destruct (_ <=? _); [discriminate|]. destruct mode, sx; discriminate.
Qed.

Lemma to_double_not_nan (mode : rounding_mode) (r : FixedPoint) :
  to_double mode r <> S754_nan.
Proof.
  unfold to_double, double_of_int.
  assert (H : forall s m e, ldexp mode (dround mode s m e) (place r) <> S754_nan).
  { intros s m e. unfold dround at 1.
    destruct (shl_align m e _) as [mz ez].
    pose proof (binary_round_aux_not_nan mode s mz ez loc_Exact) as Hn.
    destruct (dround_aux mode s (Zpos mz) ez loc_Exact)
      as [s'|s'| |s' m' e']; try discriminate; [contradiction|].
    unfold ldexp, dround.
    destruct (shl_align m' _ _) as [mz' ez'].
    apply binary_round_aux_not_nan. }
  destruct (significand r); [discriminate|apply H|apply H].
Qed.

(** ** Instances *)

Lemma conforming_lp64_glibc : conforming lp64_glibc.
Proof. unfold conforming; cbn; lia. Qed.

Lemma conforming_fast32_is_int : conforming fast32_is_int.
Proof. unfold conforming; cbn; lia. Qed.

(** The operands of the README: 7.9375 of the type (8, -4) and -1.96875
    of the type (7, -5). *)
Lemma binary_operators_exact_witness :
  let a := mkFixedPoint 8 (-4) 127 in
  let b := mkFixedPoint 7 (-5) (-63) in
  (real_value (add lp64_glibc a b) == real_value a + real_value b)%Q /\
  (real_value (sub lp64_glibc a b) == real_value a - real_value b)%Q /\
  (real_value (mul lp64_glibc a b) == real_value a * real_value b)%Q.
Proof.
  intros a b.
  assert (La : legal a) by (unfold legal, legal_significand; cbn; lia).
  assert (Lb : legal b) by (unfold legal, legal_significand; cbn; lia).
  destruct (binary_operators_exact lp64_glibc conforming_lp64_glibc a b
              eq_refl eq_refl La Lb) as [Hadd Hmul].
  destruct (Hadd eq_refl) as [H1 H2].
  split; [exact H1|]. split; [exact H2|]. exact (Hmul eq_refl).
Defined.

Lemma complex_product_type_witness :
  let x := mkComplex (mkFixedPoint 8 (-4) 50) (mkFixedPoint 8 (-4) (-39)) in
  let y := mkComplex (mkFixedPoint 7 (-5) 21) (mkFixedPoint 7 (-5) 63) in
  width (real (Complex_mul lp64_glibc x y)) = 15 /\
  place (real (Complex_mul lp64_glibc x y)) = -9 /\
  width (imag (Complex_mul lp64_glibc x y)) = 15 /\
  place (imag (Complex_mul lp64_glibc x y)) = -9.
Proof.
  intros x y.
  exact (proj2 (complex_product_type lp64_glibc x y
                  eq_refl eq_refl eq_refl eq_refl eq_refl eq_refl eq_refl eq_refl)).
Defined.

(** 2.5 of the type (8, -4), rounded to an integer. *)
Lemma rounding_midpoints_witness :
  let x := mkFixedPoint 8 (-4) 40 in
  round_half_to_even lp64_glibc 0 x = mkFixedPoint 5 0 2 /\
  Z.even (significand (round_half_to_even lp64_glibc 0 x)) = true /\
  round_half_away_from_zero lp64_glibc 0 x = mkFixedPoint 5 0 3 /\
  round_half_toward_zero lp64_glibc 0 x = mkFixedPoint 5 0 2 /\
  round_half_up lp64_glibc 0 x = mkFixedPoint 5 0 3 /\
  round_half_down lp64_glibc 0 x = mkFixedPoint 5 0 2.
Proof.
  intros x.
  assert (Lx : legal x) by (unfold legal, legal_significand; cbn; lia).
  assert (Hp : place x < 0) by (cbn; lia).
  exact (rounding_midpoints lp64_glibc conforming_lp64_glibc x 0
           eq_refl Lx Hp eq_refl).
Defined.

(** 200 of the type (16, 2), rounded at the place 0. *)
Lemma rounding_not_coarser_copies_witness :
  let x := mkFixedPoint 16 2 50 in
  Forall (fun r => r = x /\ (real_value r == real_value x)%Q)
         (roundings lp64_glibc 0 x).
Proof.
  intros x.
  assert (Lx : legal x) by (unfold legal, legal_significand; cbn; lia).
  assert (Hp : 0 <= place x) by (cbn; lia).
  exact (rounding_not_coarser_copies lp64_glibc conforming_lp64_glibc x 0
           eq_refl Lx Hp).
Defined.

(** C6, the claim as it is stated, at 2.5 of the type (8, -1) and the
    target place 0, which is not finer than -1: [floor] returns 2. *)
Lemma rounding_to_coarser_place_discards :
  let x := mkFixedPoint 8 (-1) 5 in
  well_typed x /\ legal x /\ 0 >= place x /\
  floor lp64_glibc 0 x = mkFixedPoint 8 0 2 /\
  ~ (real_value (floor lp64_glibc 0 x) == real_value x)%Q.
Proof.
  intros x.
  split; [reflexivity|].
  split; [unfold legal, legal_significand; cbn; lia|].
  split; [cbn; lia|].
  split; [reflexivity|].
  intros H. vm_compute in H. discriminate H.
Qed.

(** The accumulator of 12 bits of the tests. *)
Lemma int_adder_wraps_witness :
  int_adder lp64_glibc 12 2000 (mkFixedPoint 8 0 50) = -2046.
Proof.
  assert (Li : legal (mkFixedPoint 8 0 50))
    by (unfold legal, legal_significand; cbn; lia).
  assert (Ha : - 2 ^ (12 - 1) <= 2000 <= 2 ^ (12 - 1) - 1) by (cbn; lia).
  assert (H1 : 2 <= 12 <= 64) by lia.
  assert (H2 : 2 <= width (mkFixedPoint 8 0 50)) by (cbn; lia).
  destruct (int_adder_wraps lp64_glibc conforming_lp64_glibc 12 2000
              (mkFixedPoint 8 0 50) H1 H2 eq_refl Ha Li) as (_ & _ & Hu).
  symmetry. apply Hu; [cbn; lia | reflexivity].
Defined.

Lemma clamp_adder_legal_witness :
  legal_significand 12 (clamp_adder lp64_glibc 12 2000 (mkFixedPoint 8 0 50)) /\
  clamp_adder lp64_glibc 12 2000 (mkFixedPoint 8 0 50) <> - 2 ^ (12 - 1).
Proof.
  exact (clamp_adder_legal lp64_glibc conforming_lp64_glibc 12 2000
           (mkFixedPoint 8 0 50) eq_refl).
Defined.

(** C7, at two inputs where the sum does not fit WIDTH1 bits and
    [exact_adder] returns.  The sum is computed in the type of the
    accumulator, before it is stored in the wider [result]: with
    WIDTH1 = 32 where [int_fast32_t] has 32 bits, and with WIDTH1 = 64
    wherever [int_fast64_t] has 64 bits, that type has no bit more than
    WIDTH1 and the sum wraps around into the range that the test of the
    high bits accepts. *)
Theorem exact_adder_overflow_unreported :
  (let increment := mkFixedPoint 32 0 2147483647 in
   legal_significand 32 2147483647 /\ legal increment /\
   static_assert_adder 32 (width increment) = true /\
   ~ (- 2 ^ (32 - 1) <= 2147483647 + significand increment <= 2 ^ (32 - 1) - 1) /\
   exact_adder fast32_is_int 32 2147483647 increment = Returns (-2)) /\
  (let increment := mkFixedPoint 8 0 50 in
   legal_significand 64 9223372036854775807 /\ legal increment /\
   static_assert_adder 64 (width increment) = true /\
   ~ (- 2 ^ (64 - 1) <= 9223372036854775807 + significand increment <= 2 ^ (64 - 1) - 1) /\
   exact_adder lp64_glibc 64 9223372036854775807 increment
   = Returns (-9223372036854775759)).
Proof.
  split; cbv zeta.
  - split; [unfold legal_significand; cbn; lia|].
    split; [unfold legal, legal_significand; cbn; lia|].
    split; [reflexivity|]. split; [cbn; lia|]. reflexivity.
  - split; [unfold legal_significand; cbn; lia|].
    split; [unfold legal, legal_significand; cbn; lia|].
    split; [reflexivity|]. split; [cbn; lia|]. reflexivity.
Qed.

(** Where [int_fast32_t] has 64 bits, [exact_adder<32>] reports the same
    sum. *)
Lemma exact_adder_32_on_lp64_glibc :
  exact_adder lp64_glibc 32 2147483647 (mkFixedPoint 32 0 2147483647)
  = Throws_range_error.
Proof. reflexivity. Qed.

(** 2.5, which rounds to 2 in the default rounding mode, constructed at
    the type (8, 0). *)
Lemma from_double_limit_precision_witness :
  let d := S754_finite false 5629499534213120 (-51) in
  let r := mkFixedPoint 8 0 2 in
  deq (to_double FE_TONEAREST r) (limit_precision lp64_glibc FE_TONEAREST d 8 0) = true /\
  (to_double FE_TONEAREST r = limit_precision lp64_glibc FE_TONEAREST d 8 0 \/
   to_double FE_TONEAREST r = S754_zero false /\
   limit_precision lp64_glibc FE_TONEAREST d 8 0 = S754_zero true).
Proof.
  intros d r.
  exact (from_double_limit_precision lp64_glibc conforming_lp64_glibc
           FE_TONEAREST 8 0 d r eq_refl eq_refl).
Defined.

(** A NaN, which [limit_precision] returns as it is, is the double of no
    [FixedPoint]. *)
Lemma nan_does_not_round_trip (mode : rounding_mode) (r : FixedPoint) :
  limit_precision lp64_glibc mode S754_nan 8 0 = S754_nan /\
  from_double lp64_glibc mode 8 0 S754_nan = None /\
  to_double mode r <> S754_nan /\
  deq (to_double mode r) S754_nan = false.
Proof.
  split; [destruct mode; reflexivity|]. split; [reflexivity|].
  split; [apply to_double_not_nan|].
  unfold deq, SFeqb. destruct (to_double mode r); reflexivity.
Qed.

(** C3, at two doubles beyond the range of the significand, in every
    rounding mode: the double of the repository's test of the clamping,
    0x10001000 * 2^36 = 2^64 + 2^48, at the type (54, 0), and 1e300 at
    the type (8, 0).  [limit_precision] clamps them to 2^53 - 1 and to
    127, and the test requires 0x001FFFFFFFFFFFFF of the [FixedPoint]
    made of the first.  [to_significand] hands nearbyint(a * 2^-PLACE),
    a double, to [clamp], whose parameter is an integer: the conversion
    comes before the clamping and is undefined for these doubles, which
    the integer type does not hold.  x86-64 returns the least integer
    of the type for it, which [clamp] turns into the least significand,
    and the [FixedPoint] converts back to -(2^53 - 1) and to -127, which
    are not what [limit_precision] returns. *)
Theorem from_double_out_of_range_not_clamped (mode : rounding_mode) :
  (let b := S754_finite false 4503668346847232 12 in
   static_assert_FixedPoint 54 0 = true /\
   limit_precision lp64_glibc mode b 54 0 = double_of_int mode 9007199254740991 /\
   from_double lp64_glibc mode 54 0 b = None /\
   from_double_x86_64 lp64_glibc mode 54 0 b = mkFixedPoint 54 0 (-9007199254740991) /\
   to_double mode (from_double_x86_64 lp64_glibc mode 54 0 b)
   = double_of_int mode (-9007199254740991) /\
   deq (to_double mode (from_double_x86_64 lp64_glibc mode 54 0 b))
       (limit_precision lp64_glibc mode b 54 0) = false) /\
  (let d := S754_finite false 6724873095247260 944 in
   static_assert_FixedPoint 8 0 = true /\
   limit_precision fast32_is_int mode d 8 0 = double_of_int mode 127 /\
   from_double fast32_is_int mode 8 0 d = None /\
   from_double_x86_64 fast32_is_int mode 8 0 d = mkFixedPoint 8 0 (-127) /\
   from_double_x86_64 lp64_glibc mode 8 0 d = mkFixedPoint 8 0 (-127) /\
   to_double mode (mkFixedPoint 8 0 (-127)) = double_of_int mode (-127) /\
   deq (to_double mode (mkFixedPoint 8 0 (-127)))
       (limit_precision fast32_is_int mode d 8 0) = false).
Proof.
  destruct mode; vm_compute; repeat split; reflexivity.
Qed.

(** C4, at a rounding whose shift is as long as its type.  The double
    (2^52 + 3) * 2^-64 makes a [FixedPoint<54, -64>] that holds the
    legal significand 2^52 + 3.  Its [floor<0>] is of the type
    [FixedPoint<2, 0>], which compiles, and [round_sig_t] would need 66
    bits and is the [int_fast64_t] of 64: [round_common] shifts the
    significand by 64 places at run time, which leaves it as it is where
    the count is taken modulo 64.  The value returned holds 2^52 + 3
    where [int_fast32_t] has 64 bits and the low bits of it, 3, where it
    has 32; a significand of the width 2 is legal between -1 and 1. *)
Theorem floor_shift_of_type_width_illegal :
  let d := S754_finite false 4503599627370499 (-64) in
  let x := mkFixedPoint 54 (-64) 4503599627370499 in
  well_typed x /\ legal x /\
  (forall mode : rounding_mode, from_double lp64_glibc mode 54 (-64) d = Some x) /\
  static_assert_FixedPoint (round_result_width 54 (-64) 1 0)
                           (round_result_place (-64) 0) = true /\
  round_sig_width 54 (-64) 1 0 = 66 /\
  round_sig_bits lp64_glibc 54 (-64) 1 0 = 64 /\
  floor lp64_glibc 0 x = mkFixedPoint 2 0 4503599627370499 /\
  ~ legal (floor lp64_glibc 0 x) /\
  floor fast32_is_int 0 x = mkFixedPoint 2 0 3 /\
  ~ legal (floor fast32_is_int 0 x).
Proof.
  intros d x.
  split; [reflexivity|].
  split; [unfold legal, legal_significand; cbn; lia|].
  split; [intros mode; destruct mode; reflexivity|].
  split; [reflexivity|]. split; [reflexivity|]. split; [reflexivity|].
  split; [reflexivity|].
  split; [unfold legal, legal_significand; cbn; lia|].
  split; [reflexivity|].
  unfold legal, legal_significand; cbn; lia.
Qed.

(** ** The vectors of the unit tests *)

Example test_int_adder :
  int_adder lp64_glibc 12 100 (mkFixedPoint 8 0 10) = 110 /\
  int_adder lp64_glibc 12 (-2000) (mkFixedPoint 8 0 (-50)) = 2046 /\
  int_adder lp64_glibc 12 (-2000) (mkFixedPoint 8 0 (-48)) = -2048.
Proof. repeat split; reflexivity. Qed.

Example test_exact_adder :
  exact_adder lp64_glibc 12 100 (mkFixedPoint 8 0 10) = Returns 110 /\
  exact_adder lp64_glibc 12 100 (mkFixedPoint 8 0 (-10)) = Returns 90 /\
  exact_adder lp64_glibc 12 2000 (mkFixedPoint 8 0 50) = Throws_range_error /\
  exact_adder lp64_glibc 12 (-2000) (mkFixedPoint 8 0 (-50)) = Throws_range_error.
Proof. repeat split; reflexivity. Qed.

Example test_clamp_adder :
  clamp_adder lp64_glibc 12 100 (mkFixedPoint 8 0 10) = 110 /\
  clamp_adder lp64_glibc 12 2000 (mkFixedPoint 8 0 50) = 2047 /\
  clamp_adder lp64_glibc 12 (-2000) (mkFixedPoint 8 0 (-50)) = -2047.
Proof. repeat split; reflexivity. Qed.

(** 3.5, -2.5 and -3.5 of the type (8, -4). *)
Example test_round_midway :
  round_half_to_even lp64_glibc 0 (mkFixedPoint 8 (-4) 56) = mkFixedPoint 5 0 4 /\
  round_half_to_even lp64_glibc 0 (mkFixedPoint 8 (-4) (-40)) = mkFixedPoint 5 0 (-2) /\
  round_half_to_even lp64_glibc 0 (mkFixedPoint 8 (-4) (-56)) = mkFixedPoint 5 0 (-4) /\
  round_half_away_from_zero lp64_glibc 0 (mkFixedPoint 8 (-4) (-40)) = mkFixedPoint 5 0 (-3) /\
  round_half_toward_zero lp64_glibc 0 (mkFixedPoint 8 (-4) (-40)) = mkFixedPoint 5 0 (-2) /\
  round_half_up lp64_glibc 0 (mkFixedPoint 8 (-4) (-40)) = mkFixedPoint 5 0 (-2) /\
  round_half_down lp64_glibc 0 (mkFixedPoint 8 (-4) (-40)) = mkFixedPoint 5 0 (-3).
Proof. repeat split; reflexivity. Qed.

(** 9.7 at the width 50 and the place -1, to nearest and downward; 1000
    at the widths 8 and 9. *)
Example test_limit_precision :
  let d := S754_finite false 5460342275470132 (-49) in
  limit_precision lp64_glibc FE_TONEAREST d 50 (-1)
  = ldexp FE_TONEAREST (double_of_int FE_TONEAREST 19) (-1) /\
  limit_precision lp64_glibc FE_DOWNWARD (SFopp d) 50 (-1)
  = ldexp FE_DOWNWARD (double_of_int FE_DOWNWARD (-20)) (-1) /\
  limit_precision lp64_glibc FE_TONEAREST (double_of_int FE_TONEAREST 1000) 8 0
  = double_of_int FE_TONEAREST 127 /\
  limit_precision lp64_glibc FE_TONEAREST (double_of_int FE_TONEAREST (-1000)) 9 0
  = double_of_int FE_TONEAREST (-255).
Proof. repeat split; reflexivity. Qed.

(** The least positive double, 2^-1074, at the type (8, 1): its product
    by 2^-1 is rounded in the current mode, to nothing or to 2^-1074
    again, and so is the integral value. *)
Example test_rounding_mode_of_product :
  let d := S754_finite false 1 (-1074) in
  from_double lp64_glibc FE_UPWARD 8 1 d = Some (mkFixedPoint 8 1 1) /\
  limit_precision lp64_glibc FE_UPWARD d 8 1 = double_of_int FE_UPWARD 2 /\
  from_double lp64_glibc FE_TONEAREST 8 1 d = Some (mkFixedPoint 8 1 0) /\
  limit_precision lp64_glibc FE_TONEAREST d 8 1 = S754_zero false /\
  from_double lp64_glibc FE_DOWNWARD 8 1 (SFopp d) = Some (mkFixedPoint 8 1 (-1)) /\
  limit_precision lp64_glibc FE_DOWNWARD (SFopp d) 8 1 = double_of_int FE_DOWNWARD (-2).
Proof. repeat split; reflexivity. Qed.
